(** * ForexSubPub: the subscriber side of a Forex price feed

    A shallow embedding of [fxp_bytes_subscriber.py] (the wire codec) and of
    [forex_subscriber.py] (the quote store, the snapshot hand-off, the graph
    rebuild, the cycle reconstruction and the profit evaluation), with the
    properties of the design document stated and settled against them.

    Conventions.
    - A Python [bytes] object is a [list byte]; a [str] is a [string].
    - A Python [float] is a primitive binary64 [float].
    - A Python exception is a constructor of [exn]; code that can raise
      returns a [result].
    - A Python [dict] is an association list in insertion order whose keys
      are pairwise distinct ([dict_wf]).
    - [datetime] objects are counted in microseconds, their resolution.
    - The subscriber reaches the timestamps it stores through [<] and
      through subtraction from a [datetime]: [Timestamp] is that
      interface, with the [datetime]s its code is written for and the
      floats that the codec hands over as its two instances. *)

From Stdlib Require Import ZArith Lia Floats.
From Stdlib.Strings Require Import Byte Ascii String.
From stdpp Require Import base option list sets strings.
From Equations Require Import Equations.

Open Scope Z_scope.

(** ** Exceptions and fallible results *)

Inductive exn : Set :=
| UnicodeDecodeError
| ValueError
| IndexError
| TypeError
| KeyError
| UnboundLocalError
| ZeroDivisionError.

Inductive result (A : Type) : Type :=
| Ok (a : A)
| Raise (e : exn).
Arguments Ok {A} a.
Arguments Raise {A} e.

#[global] Instance result_ret : MRet result := fun _ a => Ok a.
#[global] Instance result_bind : MBind result := fun _ _ f r =>
  match r with Ok a => f a | Raise e => Raise e end.
#[global] Instance result_fmap : FMap result := fun _ _ f r =>
  match r with Ok a => Ok (f a) | Raise e => Raise e end.

Definition is_Ok {A} (r : result A) : Prop := exists a, r = Ok a.

(** What a call hands back to its caller: Python's [None] or a [bool]. *)
Inductive pyvalue : Set :=
| PyNone
| PyBool (b : bool).

(** ** Python dictionaries *)

Module PyDict.
Section dict.
Context {K V : Type} `{EqDecision K}.

Definition dict : Type := list (K * V).

(** [d.get(k)]: [None] when [k not in d]. *)
Fixpoint dict_get (d : dict) (k : K) : option V :=
  match d with
  | [] => None
  | (k', v) :: d' => if decide (k = k') then Some v else dict_get d' k
  end.

(** [d[k] = v]: an existing key keeps its position, a new one goes last. *)
Fixpoint dict_set (d : dict) (k : K) (v : V) : dict :=
  match d with
  | [] => [(k, v)]
  | (k', v') :: d' =>
      if decide (k = k') then (k', v) :: d' else (k', v') :: dict_set d' k v
  end.

(** [del d[k]]: [KeyError] when [k not in d]. *)
Fixpoint dict_del (d : dict) (k : K) : result dict :=
  match d with
  | [] => Raise KeyError
  | (k', v') :: d' =>
      if decide (k = k') then Ok d'
      else match dict_del d' k with
           | Ok r => Ok ((k', v') :: r)
           | Raise e => Raise e
           end
  end.

Definition keys (d : dict) : list K := d.*1.

(** The representation invariant of a dictionary: no key occurs twice. *)
Definition dict_wf (d : dict) : Prop := NoDup (keys d).

End dict.
Arguments dict : clear implicits.
End PyDict.
Import PyDict.

(** ** Python numbers *)

(** [a / b] on Python integers ([0 <= a], [0 < b]): true division, the
    exact quotient rounded once to the nearest binary64, ties to even.  The
    quotient is cut to at least 56 bits, with one more bit that is set when
    the division left a remainder, and rounded from there. *)
Definition true_div (a b : Z) : float :=
  if a =? 0 then 0%float
  else
    let k := Z.max 0 (56 + Z.log2 b - Z.log2 a) in
    let q := (a * 2 ^ k) / b in
    let r := (a * 2 ^ k) mod b in
    let m := 2 * q + (if r =? 0 then 0 else 1) in
    SF2Prim (binary_normalize 53 1024 m (- k - 1) false).

(** A C [float] read as a Python [float]: the binary32 value with bit
    pattern [w] (sign, 8 exponent bits, 23 fraction bits), which binary64
    represents exactly. *)
Definition binary32_to_float (w : Z) : float :=
  let s := Z.testbit w 31 in
  let e := Z.land (Z.shiftr w 23) 255 in
  let f := Z.land w (2 ^ 23 - 1) in
  if e =? 255 then
    if f =? 0 then (if s then neg_infinity else infinity) else nan
  else if e =? 0 then
    SF2Prim (binary_normalize 53 1024 (if s then - f else f) (-149) s)
  else
    SF2Prim (binary_normalize 53 1024
               (if s then - (2 ^ 23 + f) else 2 ^ 23 + f) (e - 150) s).

(** ** fxp_bytes_subscriber.py *)

Module Codec.

Definition bytes : Type := list byte.

Definition byte_val (b : byte) : Z := Z.of_N (Byte.to_N b).

(** [b[i:j]] for [0 <= i <= j]: the slice is cut short at the end of [b]
    and never raises. *)
Definition slice (b : bytes) (i j : nat) : bytes := take (j - i) (drop i b).

(** [b.decode('ascii')] *)
Definition decode_ascii (b : bytes) : result string :=
  if forallb (fun x => byte_val x <? 128) b
  then Ok (string_of_list_byte b)
  else Raise UnicodeDecodeError.

(** The byte order of the host, [sys.byteorder]: the order in which
    [array] reads and writes its items. *)
Inductive byteorder : Set := little | big.

Fixpoint le_uint (b : bytes) : Z :=
  match b with
  | [] => 0
  | x :: b' => byte_val x + 256 * le_uint b'
  end.

(** The unsigned integer held by an item in the host's representation. *)
Definition native_uint (bo : byteorder) (item : bytes) : Z :=
  match bo with
  | little => le_uint item
  | big => le_uint (reverse item)
  end.

(** [array.array]: the type code and the items, each in its machine
    representation of [itemsize] bytes. *)
Inductive typecode : Set := tc_f | tc_Q.

Definition itemsize (tc : typecode) : nat :=
  match tc with tc_f => 4%nat | tc_Q => 8%nat end.

Record array : Type := mk_array { tc : typecode; items : list bytes }.

(** [array(tc)] *)
Definition array_new (t : typecode) : array := mk_array t [].

Fixpoint group (n fuel : nat) (s : bytes) : list bytes :=
  match fuel with
  | O => []
  | S fuel' =>
      match s with
      | [] => []
      | _ => take n s :: group n fuel' (drop n s)
      end
  end.

(** [a.frombytes(s)]: [ValueError] unless [len(s)] is a multiple of the
    item size. *)
Definition frombytes (a : array) (s : bytes) : result array :=
  if (length s mod itemsize (tc a) =? 0)%nat
  then Ok (mk_array (tc a) (items a ++ group (itemsize (tc a)) (length s) s))
  else Raise ValueError.

(** [a.byteswap()] *)
Definition byteswap (a : array) : array :=
  mk_array (tc a) (reverse <$> items a).

(** [a[i]] of an [array('f')] *)
Definition getitem_f (bo : byteorder) (a : array) (i : nat) : result float :=
  match items a !! i with
  | Some item => Ok (binary32_to_float (native_uint bo item))
  | None => Raise IndexError
  end.

(** [a[i]] of an [array('Q')] *)
Definition getitem_Q (bo : byteorder) (a : array) (i : nat) : result Z :=
  match items a !! i with
  | Some item => Ok (native_uint bo item)
  | None => Raise IndexError
  end.

Definition MICROS_PER_SECOND : Z := 1000000.

Definition deserialize_price (bo : byteorder) (byte_data : bytes)
  : result float :=
  a ← frombytes (array_new tc_f) byte_data;
  getitem_f bo a 0.

Definition deserialize_utcdatetime (bo : byteorder) (byte_data : bytes)
  : result float :=
  a ← frombytes (array_new tc_Q) byte_data;
  let a := byteswap a in
  micros ← getitem_Q bo a 0;
  Ok (true_div micros MICROS_PER_SECOND).

Definition split_quotes (binary_string : bytes) : list bytes :=
  let quotes_size := 32%nat in
  let quotes_count := (length binary_string / quotes_size)%nat in
  let quotes_list :=
    (fun i =>
       slice binary_string (i * quotes_size) (i * quotes_size + quotes_size))
      <$> seq 0 quotes_count in
  if (length binary_string mod quotes_size =? 0)%nat
  then quotes_list
  else quotes_list ++ [drop (quotes_count * quotes_size) binary_string].

(** A currency pair, the key of every quote dictionary. *)
Definition iso_pair : Type := string * string.

(** The body of the loop of [parse_quotes]: one chunk decoded. *)
Definition parse_quote (bo : byteorder) (quote : bytes)
  : result (iso_pair * (float * float)) :=
  base ← decode_ascii (slice quote 0 3);
  counter ← decode_ascii (slice quote 3 6);
  price ← deserialize_price bo (slice quote 6 10);
  timestamp ← deserialize_utcdatetime bo (slice quote 10 18);
  Ok ((base, counter), (price, timestamp)).

Fixpoint parse_quotes_loop (bo : byteorder) (binary_quotes_list : list bytes)
    (quotes_dict : dict iso_pair (float * float))
  : result (dict iso_pair (float * float)) :=
  match binary_quotes_list with
  | [] => Ok quotes_dict
  | quote :: rest =>
      match parse_quote bo quote with
      | Ok (iso, entry) =>
          parse_quotes_loop bo rest (dict_set quotes_dict iso entry)
      | Raise e => Raise e
      end
  end.

Definition parse_quotes (bo : byteorder) (binary_quotes_list : list bytes)
  : result (dict iso_pair (float * float)) :=
  parse_quotes_loop bo binary_quotes_list [].

End Codec.

Import Codec.

(** *** [serialize_address]

    The request that [Subscriber.subscribe] sends: the address of the
    listening socket, marshalled. *)

Module Address.

(** The byte with the value [z mod 256]. *)
Definition byte_of_Z (z : Z) : byte :=
  match Byte.of_N (Z.to_N (z mod 256)) with
  | Some b => b
  | None => x00
  end.

(** The [n] low bytes of [z], least significant first. *)
Fixpoint le_bytes (n : nat) (z : Z) : bytes :=
  match n with
  | O => []
  | S n' => byte_of_Z z :: le_bytes n' (z / 256)
  end.

(** An unsigned item of [n] bytes in the host's representation. *)
Definition native_bytes (bo : byteorder) (n : nat) (z : Z) : bytes :=
  match bo with
  | little => le_bytes n z
  | big => reverse (le_bytes n z)
  end.

(** The exceptions of [serialize_address]: the [ValueError] of
    [ipaddress.ip_address] and the [OverflowError] of [array('H', [port])]. *)
Inductive address_exn : Set :=
| AddressValueError
| OverflowError.

Section serialize.
(** [ipaddress.ip_address(ip).packed]: the 4 bytes of an IPv4 address, the
    16 bytes of an IPv6 address, and [None] for a string that is neither,
    where [ip_address] raises. *)
Context (packed : string -> option bytes).

(** [array('H', [port])] holds one C [unsigned short], of two bytes, and
    takes the integers from 0 to 65535. *)
Definition serialize_address (bo : byteorder) (address : string * Z)
  : address_exn + bytes :=
  let '(ip, port) := address in
  match packed ip with
  | None => inl AddressValueError
  | Some ip_bytes =>
      if decide (0 <= port <= 65535) then
        let port_array := [native_bytes bo 2 port] in
        let port_array := reverse <$> port_array in
        let port_bytes := concat port_array in
        inr (ip_bytes ++ port_bytes)
      else inl OverflowError
  end.

End serialize.

End Address.

(** ** forex_subscriber.py *)

Module Forex.

(** A [datetime], and a [timedelta], in microseconds. *)
Definition datetime : Type := Z.
Definition timedelta : Type := Z.

(** What [Subscriber] asks of the timestamp objects it stores: that two of
    them compare with [<] ([update_quotes_dict]) and that one can be
    subtracted from a [datetime] ([remove_stale_quotes], [update_graph]).
    No timestamp is [<] itself. *)
Class Timestamp (T : Type) : Type := {
  ts_lt : T -> T -> bool;
  datetime_sub : datetime -> T -> result timedelta;
  ts_lt_irrefl : forall t, ts_lt t t = false
}.

(** A stored [datetime]: both operations are defined. *)
#[global] Program Instance datetime_Timestamp : Timestamp datetime := {|
  ts_lt a b := a <? b;
  datetime_sub now t := Ok (now - t)
|}.
Next Obligation. intros. apply Z.ltb_irrefl. Qed.

(** A stored [float], which is what [deserialize_utcdatetime] returns:
    [<] is the comparison of floats, and [datetime - float] is a
    [TypeError]. *)
#[global] Program Instance float_Timestamp : Timestamp float := {|
  ts_lt a b := (a <? b)%float;
  datetime_sub _ _ := Raise TypeError
|}.
Next Obligation.
  intros. rewrite ltb_spec. unfold SFltb, SFcompare.
  destruct (Prim2SF _) as [s|s| |s m e];
    try (destruct s; reflexivity); try reflexivity.
  destruct s;
    rewrite Z.compare_refl, ?Pos.compare_cont_refl, ?Pos.compare_refl;
    reflexivity.
Qed.

(** [age.total_seconds() > 1.5] and [age.total_seconds() <= 1.5].
    [total_seconds] divides the microseconds of the [timedelta] by [10**6]
    with one rounding, which is monotone and leaves [1.5] exact, so the
    tests on the float are the tests on the microseconds. *)
Definition older_than_window (age : timedelta) : bool := 1500000 <? age.
Definition within_window (age : timedelta) : bool := age <=? 1500000.

(** The lines the subscriber prints. *)
Inductive message : Type :=
| AddingNewQuotes (p : iso_pair)
| OutdatedQuote (p : iso_pair)
| RemovingQuote (p : iso_pair) (price : float) (age : timedelta)
| ArbitrageOpportunity
| CouldNotFindPrice (p : iso_pair)
| Conversion (p : iso_pair) (rate money : float)
| ErrorReceivingUpdates (e : exn)
| ErrorInGraphUpdate (e : exn).

(** The predecessors and the negative edge of [shortest_paths]. *)
Definition predecessors : Type := dict string string.
Definition edge : Type := (string * string)%type.

Definition inspect {A} (a : A) : {b | a = b} := exist _ a eq_refl.

(** The keys of [predecessor] that the walk has not put in [cycle] yet:
    what the loop of [find_negative_cycle_path] consumes. *)
Definition unvisited (predecessor : predecessors) (cycle : list string) : nat :=
  length (filter (fun k => k ∉ cycle) (keys predecessor)).

(** The [while] loop of [find_negative_cycle_path], from the state
    ([cycle], [current]) to the state at its exit. *)
Equations? walk_back (predecessor : predecessors) (cycle : list string)
    (current : string) : result (list string * string)
    by wf (unvisited predecessor cycle) lt :=
  walk_back predecessor cycle current with decide (current ∈ cycle) := {
    | left _ => Ok (cycle, current)
    | right _ with inspect (dict_get predecessor current) := {
        | exist _ None _ => Raise KeyError
        | exist _ (Some next) Hget =>
            walk_back predecessor (cycle ++ [current]) next } }.
Proof.
  unfold unvisited, keys. clear walk_back.
  assert (Hle : forall l : list string,
    (length (filter (fun k => k ∉ cycle ++ [current]) l) <=
     length (filter (fun k => k ∉ cycle) l))%nat).
  { induction l as [|x l IHl]; [done|].
    rewrite !filter_cons. repeat case_decide; cbn [length]; try lia.
    exfalso. set_solver. }
  revert Hget. induction predecessor as [|[k w] d IH]; [done|].
  rewrite fmap_cons. cbn [dict_get fst]. case_decide as Hk.
  - subst k. intros _. rewrite !filter_cons.
    rewrite decide_False by set_solver. rewrite decide_True by done.
    cbn [length]. specialize (Hle d.*1). lia.
  - intros Hg. specialize (IH Hg). rewrite !filter_cons.
    repeat case_decide; cbn [length]; try lia. exfalso. set_solver.
Qed.

(** [cycle.index(current)] *)
Definition index (cycle : list string) (current : string) : result nat :=
  match list_find (fun x => x = current) cycle with
  | Some (i, _) => Ok i
  | None => Raise ValueError
  end.

Definition find_negative_cycle_path (predecessor : predecessors)
    (neg_edge : option edge) : result (option (list string)) :=
  match neg_edge with
  | None => Ok None
  | Some (u, v) =>
      let cycle := [v; u] in
      match dict_get predecessor u with
      | None => Raise KeyError
      | Some current =>
          '(cycle, current) ← walk_back predecessor cycle current;
          cycle_start ← index cycle current;
          let cycle := drop cycle_start cycle in
          match cycle with
          | [] => Raise IndexError
          | first :: _ =>
              let cycle := cycle ++ [first] in
              Ok (Some (reverse cycle))
          end
      end
  end.

(** The pairs [(path[i], path[i + 1])] for [i] in [range(len(path) - 1)]. *)
Definition legs (path : list string) : list iso_pair := zip path (tail path).

(** The literal [0.000000001], as the binary64 nearest to it. *)
Definition tolerance : float := 0x1.12e0be826d695p-30%float.

(** [1/curr_rate] *)
Definition reciprocal (curr_rate : float) : result float :=
  if (curr_rate =? 0)%float then Raise ZeroDivisionError
  else Ok (1 / curr_rate)%float.

Section subscriber.
Context {G : Type}.
(** [bellman_ford.BellmanFord()], [add_edge] and [shortest_paths]: the
    module is imported by [forex_subscriber.py] and is not part of these
    sources, so its class is a parameter. *)
Context (new_BellmanFord : G).
Context (add_edge : G -> string -> string -> float -> G).
Context (shortest_paths :
  G -> string -> float -> dict string float * predecessors * option edge).
(** [math.log10] on its domain, the C library's function. *)
Context (libm_log10 : float -> float).
Context {T : Type} {TS : Timestamp T}.

Definition quotes : Type := dict iso_pair (float * T).

Record Subscriber : Type := mk_Subscriber {
  quotes_dict : quotes;
  current_path : option (list string);
  quotes_graph : G;
  quotes_queue : list quotes;
  stdout : list message
}.

(** [__init__]: an empty store, no path yet, an empty graph and an empty
    queue. *)
Definition init : Subscriber := mk_Subscriber [] None new_BellmanFord [] [].

(** The body of the loop of [update_quotes_dict], on the dictionary, the
    flag [updated] and the printed lines. *)
Definition merge_quote (st : quotes * bool * list message)
    (item : iso_pair * (float * T)) : quotes * bool * list message :=
  let '(d, updated, out) := st in
  let '(iso, (price, timestamp)) := item in
  match dict_get d iso with
  | None =>
      (dict_set d iso (price, timestamp), true, out ++ [AddingNewQuotes iso])
  | Some (_, stored) =>
      if ts_lt stored timestamp
      then (dict_set d iso (price, timestamp), true, out)
      else (d, updated, out ++ [OutdatedQuote iso])
  end.

(** [update_quotes_dict] has no [return]: the call evaluates to [None]. *)
Definition update_quotes_dict (new_quotes_dict : quotes) (self : Subscriber)
  : pyvalue * Subscriber :=
  let '(d, updated, out) :=
    foldl merge_quote (quotes_dict self, false, stdout self) new_quotes_dict in
  (PyNone,
   mk_Subscriber d (current_path self) (quotes_graph self)
     (if updated then quotes_queue self ++ [d] else quotes_queue self)
     out).

(** The first loop of [remove_stale_quotes]: the stale pairs, in order, or
    the exception of the subtraction, and the printed lines. *)
Fixpoint stale_scan (current_time : datetime) (items : quotes)
    (stale_pairs : list iso_pair) (out : list message)
  : result (list iso_pair) * list message :=
  match items with
  | [] => (Ok stale_pairs, out)
  | (iso, (price, timestamp)) :: rest =>
      match datetime_sub current_time timestamp with
      | Raise e => (Raise e, out)
      | Ok age =>
          if older_than_window age
          then stale_scan current_time rest (stale_pairs ++ [iso])
                 (out ++ [RemovingQuote iso price age])
          else stale_scan current_time rest stale_pairs out
      end
  end.

(** The second loop: [del self.quotes_dict[iso_pair]] for each stale pair;
    an exception leaves the deletions made so far in place. *)
Fixpoint delete_all (d : quotes) (stale_pairs : list iso_pair)
  : option exn * quotes :=
  match stale_pairs with
  | [] => (None, d)
  | iso :: rest =>
      match dict_del d iso with
      | Ok d' => delete_all d' rest
      | Raise e => (Some e, d)
      end
  end.

(** [current_time] is the reading of [datetime.utcnow()] at entry. *)
Definition remove_stale_quotes (current_time : datetime) (self : Subscriber)
  : result pyvalue * Subscriber :=
  match stale_scan current_time (quotes_dict self) [] (stdout self) with
  | (Raise e, out) =>
      (Raise e,
       mk_Subscriber (quotes_dict self) (current_path self) (quotes_graph self)
         (quotes_queue self) out)
  | (Ok stale_pairs, out) =>
      match delete_all (quotes_dict self) stale_pairs with
      | (Some e, d) =>
          (Raise e,
           mk_Subscriber d (current_path self) (quotes_graph self)
             (quotes_queue self) out)
      | (None, d) =>
          (Ok PyNone,
           mk_Subscriber d (current_path self) (quotes_graph self)
             (match stale_pairs with
              | [] => quotes_queue self
              | _ :: _ => quotes_queue self ++ [d]
              end)
             out)
      end
  end.

(** [math.log10]: a [ValueError] outside the domain. *)
Definition math_log10 (x : float) : result float :=
  if (x <=? 0)%float then Raise ValueError else Ok (libm_log10 x).

(** The [for] loop of [update_graph] over the items of a snapshot.
    [utcnow n] is the [n]-th reading of the clock, one per item. *)
Fixpoint build_graph (utcnow : nat -> datetime) (n : nat) (items : quotes)
    (new_graph : G) : result G :=
  match items with
  | [] => Ok new_graph
  | (iso, (price, timestamp)) :: rest =>
      age ← datetime_sub (utcnow n) timestamp;
      if within_window age then
        log_price ← math_log10 price;
        let new_graph := add_edge new_graph iso.1 iso.2 (- log_price)%float in
        let new_graph := add_edge new_graph iso.2 iso.1 log_price in
        build_graph utcnow (S n) rest new_graph
      else build_graph utcnow (S n) rest new_graph
  end.

(** The rate of one leg, as the [if]/[elif]/[else] of the loop of
    [identify_arbitrage] leaves [curr_rate]: [None] is the unbound name. *)
Definition lookup_rate (d : quotes) (curr_pair : iso_pair)
    (curr_rate : option float) (out : list message)
  : result (option float) * list message :=
  match dict_get d curr_pair with
  | Some (price, _) => (Ok (Some price), out)
  | None =>
      match dict_get d (curr_pair.2, curr_pair.1) with
      | Some (price, _) =>
          (match reciprocal price with
           | Ok r => Ok (Some r)
           | Raise e => Raise e
           end, out)
      | None => (Ok curr_rate, out ++ [CouldNotFindPrice curr_pair])
      end
  end.

(** The [for] loop of [identify_arbitrage]: the final [curr_money], or the
    exception that ended the loop, and the printed lines. *)
Fixpoint profit_loop (d : quotes) (path_legs : list iso_pair)
    (curr_money : float) (curr_rate : option float) (out : list message)
  : result float * list message :=
  match path_legs with
  | [] => (Ok curr_money, out)
  | curr_pair :: rest =>
      match lookup_rate d curr_pair curr_rate out with
      | (Raise e, out) => (Raise e, out)
      | (Ok None, out) => (Raise UnboundLocalError, out)
      | (Ok (Some rate), out) =>
          let curr_money := (curr_money * rate)%float in
          profit_loop d rest curr_money (Some rate)
            (out ++ [Conversion curr_pair rate curr_money])
      end
  end.

Definition identify_arbitrage (self : Subscriber)
  : result pyvalue * Subscriber :=
  let '(_, predecessor, neg_edge) :=
    shortest_paths (quotes_graph self) "USD" tolerance in
  match find_negative_cycle_path predecessor neg_edge with
  | Raise e => (Raise e, self)
  | Ok None | Ok (Some []) => (Ok PyNone, self)
  | Ok (Some path) =>
      if decide (Some path = current_path self) then (Ok PyNone, self)
      else
        let out := stdout self ++ [ArbitrageOpportunity] in
        let '(r, out) :=
          profit_loop (quotes_dict self) (legs path) 100 None out in
        (match r with Ok _ => Ok PyNone | Raise e => Raise e end,
         mk_Subscriber (quotes_dict self) (Some path) (quotes_graph self)
           (quotes_queue self) out)
  end.

(** One turn of the loop of [update_graph]: an empty queue is
    [queue.Empty], and any other exception is printed. *)
Definition update_graph_step (utcnow : nat -> datetime) (self : Subscriber)
  : Subscriber :=
  match quotes_queue self with
  | [] => self
  | snapshot :: rest =>
      let self := mk_Subscriber (quotes_dict self) (current_path self)
                    (quotes_graph self) rest (stdout self) in
      match build_graph utcnow 0 snapshot new_BellmanFord with
      | Raise e =>
          mk_Subscriber (quotes_dict self) (current_path self)
            (quotes_graph self) (quotes_queue self)
            (stdout self ++ [ErrorInGraphUpdate e])
      | Ok new_graph =>
          let self := mk_Subscriber (quotes_dict self) (current_path self)
                        new_graph (quotes_queue self) (stdout self) in
          match identify_arbitrage self with
          | (Ok _, self) => self
          | (Raise e, self) =>
              mk_Subscriber (quotes_dict self) (current_path self)
                (quotes_graph self) (quotes_queue self)
                (stdout self ++ [ErrorInGraphUpdate e])
          end
      end
  end.

End subscriber.

Arguments Subscriber : clear implicits.
Arguments quotes : clear implicits.

(** One turn of the loop of [receive_updates] on the datagram [data] that
    [recvfrom] returned.  The timestamps that reach the store are the
    floats of the codec. *)
Definition receive_updates_step {G : Type} (bo : byteorder)
    (current_time : datetime) (data : bytes) (self : Subscriber G float)
  : Subscriber G float :=
  let quotes_binary := split_quotes data in
  match parse_quotes bo quotes_binary with
  | Raise e =>
      mk_Subscriber (quotes_dict self) (current_path self) (quotes_graph self)
        (quotes_queue self) (stdout self ++ [ErrorReceivingUpdates e])
  | Ok new_quotes_dict =>
      let '(_, self) := update_quotes_dict new_quotes_dict self in
      match remove_stale_quotes current_time self with
      | (Ok _, self) => self
      | (Raise e, self) =>
          mk_Subscriber (quotes_dict self) (current_path self)
            (quotes_graph self) (quotes_queue self)
            (stdout self ++ [ErrorReceivingUpdates e])
      end
  end.

End Forex.

(** ** The two threads

    [start] runs the loop of [receive_updates] and the loop of
    [update_graph] in a thread each.  The threads share the subscriber:
    the store and the last path, which they read and write under
    [dict_lock], and the queue, whose [put] and [get] are atomic.  A
    schedule is the sequence of the regions that they run one at a time:
    the merge of a datagram, the eviction that follows it when the merge
    has not raised, and a turn of the graph builder, whose only reads of
    what the other thread writes are the [get] from the queue and the
    locked region of [identify_arbitrage].  The lines of the two threads
    may reach the terminal in another order than that of the schedule. *)

Module Threads.
Import Forex.

Inductive turn : Type :=
| Merge (data : bytes)
| Evict (current_time : datetime)
| Rebuild (utcnow : nat -> datetime).

Section threads.
Context {G : Type}.
Context (new_BellmanFord : G).
Context (add_edge : G -> string -> string -> float -> G).
Context (shortest_paths :
  G -> string -> float -> dict string float * predecessors * option edge).
Context (libm_log10 : float -> float).
Context (bo : byteorder).

Definition take_turn (self : Subscriber G float) (t : turn)
  : Subscriber G float :=
  match t with
  | Merge data =>
      match parse_quotes bo (split_quotes data) with
      | Raise e =>
          mk_Subscriber (quotes_dict self) (current_path self)
            (quotes_graph self) (quotes_queue self)
            (stdout self ++ [ErrorReceivingUpdates e])
      | Ok new_quotes_dict => (update_quotes_dict new_quotes_dict self).2
      end
  | Evict current_time =>
      match remove_stale_quotes current_time self with
      | (Ok _, self) => self
      | (Raise e, self) =>
          mk_Subscriber (quotes_dict self) (current_path self)
            (quotes_graph self) (quotes_queue self)
            (stdout self ++ [ErrorReceivingUpdates e])
      end
  | Rebuild utcnow =>
      update_graph_step new_BellmanFord add_edge shortest_paths libm_log10
        utcnow self
  end.

(** The subscriber that [main] creates, after the turns of a schedule. *)
Definition run (schedule : list turn) : Subscriber G float :=
  foldl take_turn (init new_BellmanFord) schedule.

End threads.

End Threads.

(** ** The design document's own descriptions

    These definitions follow the words of the design document, not the
    code; the theorems below compare the two. *)

Module Design.
Import Forex.

(** The unsigned integer of a big-endian byte string. *)
Definition be_uint (b : bytes) : Z :=
  foldl (fun acc x => acc * 256 + byte_val x) 0 b.

Definition wire_uint (order : byteorder) (b : bytes) : Z :=
  match order with
  | big => be_uint b
  | little => le_uint b
  end.

(** Bytes [i] to [i + n - 1] of a record. *)
Definition field (quote : bytes) (i n : nat) : bytes :=
  (fun k => nth k quote x00) <$> seq i n.

(** The record layout: bytes 0-5 two ASCII codes, bytes 6-9 a binary32
    price read in [price_order], bytes 10-17 an unsigned count of
    microseconds read in [time_order] and turned into seconds; bytes 18-31
    take no part. *)
Definition wire_layout (price_order time_order : byteorder) (quote : bytes)
  : result (iso_pair * (float * float)) :=
  base ← decode_ascii (field quote 0 3);
  counter ← decode_ascii (field quote 3 3);
  Ok ((base, counter),
      (binary32_to_float (wire_uint price_order (field quote 6 4)),
       true_div (wire_uint time_order (field quote 10 8)) 1000000)).

(** "Big-endian throughout". *)
Definition big_endian_layout : bytes -> result (iso_pair * (float * float)) :=
  wire_layout big big.

Definition opposite (bo : byteorder) : byteorder :=
  match bo with little => big | big => little end.

(** The walk [x, predecessor[x], predecessor[predecessor[x]], ...] for as
    long as it stays within the domain of [predecessor], and for [n]
    predecessor steps at most. *)
Fixpoint predecessor_walk (predecessor : predecessors) (n : nat) (x : string)
  : list string :=
  x :: match n with
       | O => []
       | S n' =>
           match dict_get predecessor x with
           | Some y => predecessor_walk predecessor n' y
           | None => []
           end
       end.

(** The walk [v, u, predecessor[u], ...] from the negative edge [(u, v)].
    A walk that stays within the domain meets a vertex again before it has
    taken more predecessor steps than the map has keys. *)
Definition edge_walk (predecessor : predecessors) (e : edge) : list string :=
  e.2 :: predecessor_walk predecessor (S (length predecessor)) e.1.

(** The vertex at position [n] of [w] occurs before position [n]. *)
Definition repeats_at (w : list string) (n : nat) : Prop :=
  exists x, w !! n = Some x /\ x ∈ take n w.

#[global] Instance repeats_at_dec w n : Decision (repeats_at w n).
Proof.
  unfold repeats_at. destruct (w !! n) as [x|].
  - destruct (decide (x ∈ take n w)) as [Hin|Hnin].
    + left. eauto.
    + right. intros (y & [= <-] & Hy). done.
  - right. intros (y & [=] & _).
Defined.

(** The position of the first repeated vertex of [w]. *)
Definition first_repeat (w : list string) : option nat :=
  fst <$> list_find (repeats_at w) (seq 0 (length w)).

(** The closed suffix of the walk truncated at its first repeated vertex,
    from the earlier occurrence of that vertex up to the repetition,
    reversed. *)
Definition closed_cycle (predecessor : predecessors) (e : edge)
  : option (list string) :=
  let w := edge_walk predecessor e in
  n ← first_repeat w;
  x ← w !! n;
  '(s, _) ← list_find (fun y => y = x) w;
  Some (reverse (take (S n - s) (drop s w))).

(** A directed edge with its weight. *)
Definition weighted_edge : Type := string * string * float.

(** What one quote of a snapshot puts in the price graph when it is
    consumed at time [now]: the two edges of a fresh quote, nothing for a
    stale one. *)
Definition quote_edges (libm_log10 : float -> float) (now : datetime)
    (item : iso_pair * (float * datetime)) : list weighted_edge :=
  let '((base, counter), (price, observed)) := item in
  if now - observed <=? 1500000
  then [(base, counter, (- libm_log10 price)%float);
        (counter, base, libm_log10 price)]
  else [].

(** The graph that results from adding [edges] in order. *)
Definition add_edges {G : Type} (add_edge : G -> string -> string -> float -> G)
    (g : G) (edges : list weighted_edge) : G :=
  foldl (fun g e => add_edge g e.1.1 e.1.2 e.2) g edges.

(** The price of the design document's data model: [price > 0]. *)
Definition positive_price (price : float) : Prop := (0 <? price)%float = true.

(** What the design document asks of the ingestion of a datagram that
    ends in a partial record: the store is the one that the datagram
    without its partial record leaves. *)
Definition skips_partial_record {G : Type} (bo : byteorder) (now : datetime)
    (full : list bytes) (partial : bytes) (self : Subscriber G float) : Prop :=
  quotes_dict (receive_updates_step bo now (concat full ++ partial) self) =
  quotes_dict (receive_updates_step bo now (concat full) self).

End Design.

(** *** A price graph to compute with

    [bellman_ford.py] is imported by [forex_subscriber.py] and is not part
    of these sources.  Where a graph has to be computed, it is the one of
    the design document. *)
Module EdgeList.

(** Modelled from the spec: the [PriceGraph] of [bellman_ford.BellmanFord],
    a directed graph given by its edges [(u, v, weight)]. *)
Definition graph : Type := list Design.weighted_edge.

(** Modelled from the spec: [BellmanFord()], the graph without edges. *)
Definition empty : graph := [].

(** Modelled from the spec: [BellmanFord.add_edge], which puts the edge
    [(u, v, weight)] in the graph; the edges are kept in the order of the
    calls. *)
Definition add_edge (g : graph) (u v : string) (w : float) : graph :=
  g ++ [(u, v, w)].

End EdgeList.

(** ** Sample data *)

Module Examples.
Import Forex Design.

(** The record of the docstring of [deserialize_price]: EUR/USD, the price
    bytes [d5 e9 f6 42], a timestamp and 14 reserved bytes. *)
Definition eurusd_record : bytes :=
  [x45; x55; x52; x55; x53; x44; xd5; xe9; xf6; x42;
   x00; x00; x37; xa3; x65; x8e; xf2; xc0] ++ replicate 14 x00.

(** A second EUR/USD record, one microsecond older than [eurusd_record]
    and with the price 1.0. *)
Definition older_eurusd_record : bytes :=
  [x45; x55; x52; x55; x53; x44; x00; x00; x80; x3f;
   x00; x00; x37; xa3; x65; x8e; xf2; xbf] ++ replicate 14 x00.

(** Five bytes of a record that was cut short. *)
Definition cut_record : bytes := [x47; x42; x50; x55; x53].

#[local] Open Scope string_scope.

(** A subscriber without a graph module, just created. *)
Definition fresh {T : Type} : Subscriber unit T := init tt.

(** A store of [datetime]s that quotes EUR/USD, observed at 0 s, USD/SEK,
    observed at 0.5 s, and USD/JPY, observed at 1 s. *)
Definition three_quotes : quotes datetime :=
  [(("EUR", "USD"), (1.25%float, 0));
   (("USD", "SEK"), (10%float, 500000));
   (("USD", "JPY"), (100%float, 1000000))].

Definition three_quotes_subscriber : Subscriber unit datetime :=
  mk_Subscriber three_quotes None tt [] [].

(** A store that quotes A/B at 2.0 and nothing else. *)
Definition ab_store : quotes datetime := [(("A", "B"), (2%float, 0))].

(** [log10] on the powers of ten among the prices of [three_quotes],
    where it is exact. *)
Definition log10_of_power (x : float) : float :=
  if (x =? 100)%float then 2%float
  else if (x =? 10)%float then 1%float
  else if (x =? 1)%float then 0%float
  else nan.

(** Predecessors with the cycle A <- C <- B <- A and a path D <- A into
    it. *)
Definition cycle_predecessors : predecessors :=
  [("A", "C"); ("B", "A"); ("C", "B"); ("D", "A")].

(** Predecessors of a graph with a negative self-loop at A. *)
Definition loop_predecessors : predecessors := [("A", "B"); ("B", "A")].

(** A subscriber whose graph is a list of edges, just created. *)
Definition fresh_edges : Subscriber EdgeList.graph float := init EdgeList.empty.

(** A [shortest_paths] that finds no negative edge. *)
Definition no_cycle (g : EdgeList.graph) (source : string) (eps : float)
  : dict string float * predecessors * option edge :=
  ([], [], None).

(** The datagram that carries [eurusd_record] alone, whose timestamp is
    61174923.064 s after the epoch, and the readings of the clock one and
    two seconds after that instant. *)
Definition eurusd_datagram : bytes := eurusd_record.
Definition one_second_later : datetime := 61174924064000.
Definition two_seconds_later : datetime := 61174925064000.

(** A [shortest_paths] that has found the negative edge C -> A with the
    predecessors C <- B <- A. *)
Definition found_cycle (g : unit) (source : string) (eps : float)
  : dict string float * predecessors * option edge :=
  ([], [("C", "B"); ("B", "A")], Some ("C", "A")).

(** [ipaddress.ip_address(ip).packed] on the address that the socket of
    the subscriber is bound to, and on no other string. *)
Definition loopback_packed (ip : string) : option bytes :=
  if decide (ip = "127.0.0.1") then Some [x7f; x00; x00; x01] else None.


(** A batch that has a newer EUR/USD, an older USD/SEK and a new pair. *)
Definition mixed_batch : quotes datetime :=
  [(("EUR", "USD"), (1.5%float, 250000));
   (("USD", "SEK"), (9%float, 400000));
   (("GBP", "USD"), (1.25%float, 600000))].

(** A schedule in which [eurusd_datagram] is merged, the eviction runs two
    seconds after its quote, and the graph builder takes a turn. *)
Definition one_datagram_schedule : list Threads.turn :=
  [Threads.Merge eurusd_datagram;
   Threads.Evict two_seconds_later;
   Threads.Rebuild (fun _ => two_seconds_later)].

End Examples.

(** * Properties *)

(** ** Dictionaries *)

Section dict_facts.
Context {K V : Type} `{EqDecision K}.
Implicit Types (d : dict K V) (k : K) (v : V).

Lemma dict_get_None d k : dict_get d k = None <-> k ∉ keys d.
Proof.
  induction d as [|[k' v] d IH]; simpl.
  - split; [intros _; apply not_elem_of_nil | done].
  - case_decide as Hk.
    + subst. split; [done | intros []; left].
    + rewrite IH, not_elem_of_cons. tauto.
Qed.

Lemma dict_get_Some_keys d k v : dict_get d k = Some v -> k ∈ keys d.
Proof.
  intros H. destruct (decide (k ∈ keys d)) as [|Hn]; [done|].
  apply dict_get_None in Hn. congruence.
Qed.

Lemma dict_get_elem_of d k v : dict_get d k = Some v -> (k, v) ∈ d.
Proof.
  induction d as [|[k' v'] d IH]; simpl; [done|].
  case_decide.
  - intros [= ->]. subst. left.
  - intros. right. auto.
Qed.

Lemma dict_get_wf_elem_of d k v :
  dict_wf d -> (k, v) ∈ d -> dict_get d k = Some v.
Proof.
  unfold dict_wf, keys. induction d as [|[k' v'] d IH]; simpl.
  - intros _ H. by apply elem_of_nil in H.
  - intros Hnd [Heq|Hin]%elem_of_cons.
    + injection Heq as -> ->. by rewrite decide_True.
    + apply NoDup_cons in Hnd as [Hk' Hnd].
      rewrite decide_False; [auto|].
      intros ->. apply Hk'. apply (list_elem_of_fmap_2 fst) in Hin. done.
Qed.

Lemma dict_get_set_eq d k v : dict_get (dict_set d k v) k = Some v.
Proof.
  induction d as [|[k' v'] d IH]; simpl.
  - by rewrite decide_True.
  - case_decide as Hk; simpl.
    + by rewrite decide_True.
    + by rewrite decide_False.
Qed.

Lemma dict_get_set_ne d k k' v :
  k' <> k -> dict_get (dict_set d k v) k' = dict_get d k'.
Proof.
  intros Hne. induction d as [|[k0 v0] d IH]; simpl.
  - by rewrite decide_False.
  - case_decide as Hk; simpl.
    + subst. by rewrite !decide_False.
    + case_decide; [done | apply IH].
Qed.

Lemma keys_set d k v :
  forall k', k' ∈ keys (dict_set d k v) <-> k' = k \/ k' ∈ keys d.
Proof.
  intros k'. unfold keys. induction d as [|[k0 v0] d IH]; simpl.
  - rewrite list_elem_of_singleton. split; [auto|].
    intros [?|H]; [done | by apply elem_of_nil in H].
  - case_decide as Hk; simpl.
    + subst. rewrite elem_of_cons. tauto.
    + rewrite !elem_of_cons, IH. tauto.
Qed.

Lemma dict_wf_set d k v : dict_wf d -> dict_wf (dict_set d k v).
Proof.
  unfold dict_wf. induction d as [|[k0 v0] d IH]; simpl.
  - intros _. apply NoDup_singleton.
  - intros [Hk0 Hnd]%NoDup_cons. case_decide as Hk; simpl.
    + by apply NoDup_cons.
    + apply NoDup_cons. split; [|auto].
      intros Hin. apply keys_set in Hin as [?|?]; [congruence | done].
Qed.

(** Deleting a present key of a well-formed dictionary succeeds, and
    removes that key only. *)
Lemma dict_del_spec d k :
  dict_wf d -> k ∈ keys d ->
  exists d', dict_del d k = Ok d' /\ dict_wf d' /\
    (forall k',
       dict_get d' k' = if decide (k' = k) then None else dict_get d k') /\
    (forall k', k' ∈ keys d' <-> k' ∈ keys d /\ k' <> k).
Proof.
  unfold dict_wf, keys. induction d as [|[k0 v0] d IH]; simpl.
  - intros _ H. by apply elem_of_nil in H.
  - intros [Hk0 Hnd]%NoDup_cons Hin. case_decide as Hk.
    + subst k0. exists d. split; [done|]. split; [done|]. split.
      * intros k'. case_decide as Hk'; [|done].
        subst. by apply dict_get_None.
      * intros k'. rewrite elem_of_cons. split.
        -- intros H. split; [by right|]. by intros ->.
        -- intros [[?|?] ?]; done.
    + apply elem_of_cons in Hin as [?|Hin]; [done|].
      destruct (IH Hnd Hin) as (d' & -> & Hwf & Hget & Hkeys).
      exists ((k0, v0) :: d'). split; [done|]. split.
      * simpl. apply NoDup_cons. split; [|done].
        intros H. apply Hkeys in H. tauto.
      * split.
        -- intros k'. simpl. case_decide as Hk'.
           ++ subst k'. by rewrite decide_False by congruence.
           ++ apply Hget.
        -- intros k'. simpl. rewrite !elem_of_cons, Hkeys.
           split; [intros [->|[? ?]]; split; auto; congruence | tauto].
Qed.

End dict_facts.

(** ** The codec *)

Section codec_facts.
Import Design Examples.

Lemma length_slice (b : bytes) (i j : nat) :
  length (slice b i j) = ((j - i) `min` (length b - i))%nat.
Proof. unfold slice. by rewrite length_take, length_drop. Qed.

Lemma be_uint_snoc (b : bytes) (x : byte) :
  be_uint (b ++ [x]) = be_uint b * 256 + byte_val x.
Proof. unfold be_uint. by rewrite foldl_app. Qed.

(** Reading the bytes from the other end swaps the two byte orders. *)
Lemma le_uint_reverse (b : bytes) : le_uint (reverse b) = be_uint b.
Proof.
  induction b as [|x b IH] using rev_ind; [done|].
  rewrite reverse_snoc, be_uint_snoc. cbn [le_uint]. rewrite IH. lia.
Qed.

Lemma native_uint_wire (bo : byteorder) (item : bytes) :
  native_uint bo item = wire_uint bo item.
Proof. destruct bo; [done | apply le_uint_reverse]. Qed.

Lemma native_uint_reverse (bo : byteorder) (item : bytes) :
  native_uint bo (reverse item) = wire_uint (opposite bo) item.
Proof.
  destruct bo; cbn [native_uint opposite wire_uint].
  - apply le_uint_reverse.
  - by rewrite reverse_involutive.
Qed.

Lemma deserialize_price_item (bo : byteorder) (b : bytes) :
  length b = 4%nat ->
  deserialize_price bo b = Ok (binary32_to_float (wire_uint bo b)).
Proof.
  intros Hlen. do 5 (destruct b as [|? b]; try discriminate).
  unfold deserialize_price, frombytes, getitem_f. cbn.
  by rewrite native_uint_wire.
Qed.

Lemma deserialize_utcdatetime_item (bo : byteorder) (b : bytes) :
  length b = 8%nat ->
  deserialize_utcdatetime bo b =
  Ok (true_div (wire_uint (opposite bo) b) MICROS_PER_SECOND).
Proof.
  intros Hlen. do 9 (destruct b as [|? b]; try discriminate).
  unfold deserialize_utcdatetime, frombytes, byteswap, getitem_Q.
  cbn. by rewrite <- native_uint_reverse.
Qed.

(** A slice that ends by byte 18 reads the first 18 bytes only. *)
Lemma slice_take (b : bytes) (i j : nat) :
  (j <= 18)%nat -> slice (take 18 b) i j = slice b i j.
Proof.
  intros Hj. unfold slice. destruct (decide (i <= j)%nat) as [Hij|Hij].
  - rewrite !take_drop_commute, take_take. do 2 f_equal. lia.
  - by replace (j - i)%nat with 0%nat by lia.
Qed.

(** Decoding reads the first 18 bytes of a chunk and nothing after them. *)
Lemma parse_quote_take (bo : byteorder) (quote : bytes) :
  parse_quote bo (take 18 quote) = parse_quote bo quote.
Proof. unfold parse_quote. by rewrite !slice_take by lia. Qed.

(** C6, as amended.  A 32-byte record decodes to: bytes 0-5 as two
    3-character ASCII codes; bytes 6-9 as a binary32 price in the byte order
    of the host (not big-endian on a little-endian host); bytes 10-17 as an
    unsigned 8-byte count of microseconds in the order opposite to the
    host's (big-endian on a little-endian host), divided by 1,000,000 into
    seconds.  Bytes 18-31 are ignored: any other 14 bytes in their place
    decode to the same. *)
Theorem parse_quote_layout (bo : byteorder) (quote : bytes) :
  length quote = 32%nat ->
  parse_quote bo quote = wire_layout bo (opposite bo) quote /\
  forall reserved : bytes,
    parse_quote bo (take 18 quote ++ reserved) = parse_quote bo quote.
Proof.
  intros Hlen. split.
  - do 33 (destruct quote as [|? quote]; try discriminate).
    unfold parse_quote, wire_layout, slice, field.
    cbn [take drop Nat.sub seq fmap list_fmap nth].
    rewrite deserialize_price_item, deserialize_utcdatetime_item by done.
    done.
  - intros reserved.
    rewrite <- (parse_quote_take bo (_ ++ _)), <- (parse_quote_take bo quote).
    f_equal. rewrite take_app_le by (rewrite length_take; lia).
    by rewrite take_take.
Qed.

Lemma parse_quote_layout_witness :
  length eurusd_record = 32%nat /\
  parse_quote little eurusd_record = wire_layout little big eurusd_record.
Proof.
  split; [reflexivity|].
  apply (parse_quote_layout little eurusd_record). reflexivity.
Defined.

(** On a little-endian host the record decodes to the price 123.4567 of
    the docstring, which is the little-endian reading of its bytes. *)
Example parse_quote_eurusd :
  parse_quote little eurusd_record =
  Ok (("EUR", "USD")%string,
      (binary32_to_float 0x42f6e9d5, true_div 0x37a3658ef2c0 1000000)).
Proof. reflexivity. Qed.

(** Two floats that [=?] tells apart, the second not a NaN, differ. *)
Lemma float_neq (x y : float) :
  (x =? y)%float = false -> (y =? y)%float = true -> x <> y.
Proof. intros Hxy Hyy ->. congruence. Qed.

(** C6, refuted as stated.  The record of the docstring does not decode to
    its big-endian reading on any host: a little-endian host reads the
    price bytes [d5 e9 f6 42] as 123.4567 and not as the big-endian
    -3.2e13, and a big-endian host reads the timestamp little-endian. *)
Lemma parse_quote_not_big_endian :
  length eurusd_record = 32%nat /\
  parse_quote little eurusd_record <> big_endian_layout eurusd_record /\
  parse_quote big eurusd_record <> big_endian_layout eurusd_record.
Proof.
  split; [reflexivity|]. split.
  - intros Heq.
    apply (f_equal (fun r => match r with
                             | Ok (_, (price, _)) => price
                             | Raise _ => 0%float
                             end)) in Heq.
    vm_compute in Heq. by apply float_neq in Heq.
  - intros Heq.
    apply (f_equal (fun r => match r with
                             | Ok (_, (_, timestamp)) => timestamp
                             | Raise _ => 0%float
                             end)) in Heq.
    vm_compute in Heq. by apply float_neq in Heq.
Qed.

Lemma parse_quotes_loop_app (bo : byteorder) (l1 l2 : list bytes)
    (d : dict iso_pair (float * float)) :
  parse_quotes_loop bo (l1 ++ l2) d =
  parse_quotes_loop bo l1 d ≫= parse_quotes_loop bo l2.
Proof.
  revert d. induction l1 as [|c l1 IH]; intros d; [done|].
  cbn [app parse_quotes_loop]. destruct (parse_quote bo c) as [[iso entry]|e].
  - apply IH.
  - done.
Qed.

(** Chunks that decode to other pairs leave the entry of [iso] as it is. *)
Lemma parse_quotes_loop_other (bo : byteorder) (iso : iso_pair)
    (l : list bytes) :
  Forall (fun c => is_Ok (parse_quote bo c)) l ->
  Forall (fun c => forall entry, parse_quote bo c <> Ok (iso, entry)) l ->
  forall d, exists d',
    parse_quotes_loop bo l d = Ok d' /\ dict_get d' iso = dict_get d iso.
Proof.
  induction 1 as [|c l [[iso' entry'] Hc] _ IH]; intros Hother d.
  - by exists d.
  - apply Forall_cons in Hother as [Hne Hother].
    destruct (IH Hother (dict_set d iso' entry')) as (d' & Hloop & Hget).
    exists d'. cbn [parse_quotes_loop]. rewrite Hc. split; [done|].
    rewrite Hget. apply dict_get_set_ne. intros ->. by apply (Hne entry').
Qed.

Lemma parse_quotes_loop_Ok (bo : byteorder) (l : list bytes) :
  Forall (fun c => is_Ok (parse_quote bo c)) l ->
  forall d, is_Ok (parse_quotes_loop bo l d).
Proof.
  induction 1 as [|c l [[iso entry] Hc] _ IH]; intros d.
  - by exists d.
  - cbn [parse_quotes_loop]. rewrite Hc. apply IH.
Qed.

(** C10.  Where chunks of one list encode the same pair, the parsed
    dictionary holds for that pair the price and timestamp of the last of
    them, whatever the timestamps of the earlier ones: no newest-wins rule
    is applied within a datagram. *)
Theorem parse_quotes_last_wins (bo : byteorder) (before after : list bytes)
    (chunk : bytes) (iso : iso_pair) (entry : float * float) :
  Forall (fun c => is_Ok (parse_quote bo c)) (before ++ after) ->
  parse_quote bo chunk = Ok (iso, entry) ->
  Forall (fun c => forall entry', parse_quote bo c <> Ok (iso, entry')) after ->
  exists d,
    parse_quotes bo (before ++ chunk :: after) = Ok d /\
    dict_get d iso = Some entry.
Proof.
  intros [Hbefore Hafter]%Forall_app Hchunk Hlast.
  destruct (parse_quotes_loop_Ok bo before Hbefore []) as [d1 Hd1].
  destruct (parse_quotes_loop_other bo iso after Hafter Hlast
              (dict_set d1 iso entry)) as (d & Hd & Hget).
  exists d. unfold parse_quotes.
  rewrite parse_quotes_loop_app, Hd1. cbn [mbind result_bind parse_quotes_loop].
  rewrite Hchunk. split; [done|]. rewrite Hget. apply dict_get_set_eq.
Qed.

(** The newer record first and the older one last: the older one stays. *)
Lemma parse_quotes_last_wins_witness :
  exists d,
    parse_quotes little [eurusd_record; older_eurusd_record] = Ok d /\
    dict_get d ("EUR", "USD")%string =
    Some (1%float, true_div 0x37a3658ef2bf 1000000).
Proof.
  apply (parse_quotes_last_wins little [eurusd_record] [] older_eurusd_record).
  - repeat constructor. eexists. reflexivity.
  - reflexivity.
  - constructor.
Defined.

(** *** Datagrams *)

Lemma split_quotes_slices (records : list bytes) (rest : bytes) :
  Forall (fun r => length r = 32%nat) records ->
  (fun i => slice (concat records ++ rest) (i * 32) (i * 32 + 32))
    <$> seq 0 (length records) = records.
Proof.
  induction 1 as [|r records Hr _ IH]; [done|].
  cbn [length seq fmap list_fmap concat]. f_equal.
  - unfold slice. change (0 * 32 + 32 - 0 * 32)%nat with 32%nat.
    change (0 * 32)%nat with 0%nat.
    by rewrite drop_0, <- (assoc_L (++)), take_app_length'.
  - rewrite <- fmap_S_seq, <- list_fmap_compose. rewrite <- IH at 2.
    apply list_fmap_ext. intros _ i _. cbn [compose]. unfold slice.
    rewrite <- (assoc_L (++)).
    replace (S i * 32)%nat with (length r + i * 32)%nat by lia.
    rewrite drop_app_add. f_equal. lia.
Qed.

Lemma length_concat_records (records : list bytes) :
  Forall (fun r => length r = 32%nat) records ->
  length (concat records) = (length records * 32)%nat.
Proof.
  induction 1 as [|r records Hr _ IH]; [done|].
  cbn [concat length]. rewrite length_app. lia.
Qed.

(** A datagram of whole records splits into them. *)
Lemma split_quotes_full (records : list bytes) :
  Forall (fun r => length r = 32%nat) records ->
  split_quotes (concat records) = records.
Proof.
  intros Hrec. unfold split_quotes.
  rewrite (length_concat_records _ Hrec).
  rewrite Nat.Div0.mod_mul, Nat.div_mul by done. cbn [Nat.eqb].
  rewrite <- (split_quotes_slices records [] Hrec) at 2.
  by rewrite (right_id_L [] (++)).
Qed.

(** A trailing partial record is handed on as a last, shorter chunk. *)
Lemma split_quotes_partial (records : list bytes) (partial : bytes) :
  Forall (fun r => length r = 32%nat) records ->
  (0 < length partial < 32)%nat ->
  split_quotes (concat records ++ partial) = records ++ [partial].
Proof.
  intros Hrec Hlen. unfold split_quotes.
  rewrite length_app, (length_concat_records _ Hrec).
  replace (length records * 32 + length partial)%nat
    with (length partial + length records * 32)%nat by lia.
  rewrite Nat.Div0.mod_add, Nat.div_add, !Nat.mod_small, Nat.div_small by lia.
  destruct (Nat.eqb_spec (length partial) 0) as [|_]; [lia|].
  cbn [Nat.add]. rewrite (split_quotes_slices records partial Hrec).
  f_equal. rewrite <- (length_concat_records _ Hrec).
  by rewrite drop_app_length.
Qed.

Lemma deserialize_price_short (bo : byteorder) (b : bytes) :
  (length b < 4)%nat -> exists e, deserialize_price bo b = Raise e.
Proof.
  intros Hlen. do 4 (destruct b as [|? b]; [cbn; eauto|]).
  cbn [length] in Hlen. lia.
Qed.

Lemma deserialize_utcdatetime_short (bo : byteorder) (b : bytes) :
  (length b < 8)%nat -> exists e, deserialize_utcdatetime bo b = Raise e.
Proof.
  intros Hlen. do 8 (destruct b as [|? b]; [cbn; eauto|]).
  cbn [length] in Hlen. lia.
Qed.

(** A chunk shorter than 18 bytes does not decode: whatever its bytes are,
    [parse_quote] raises. *)
Lemma parse_quote_short (bo : byteorder) (quote : bytes) :
  (length quote < 18)%nat -> exists e, parse_quote bo quote = Raise e.
Proof.
  intros Hlen. unfold parse_quote.
  destruct (decode_ascii (slice quote 0 3)) as [base|e]; [|by exists e].
  destruct (decode_ascii (slice quote 3 6)) as [counter|e]; [|by exists e].
  cbn [mbind result_bind].
  destruct (deserialize_price bo (slice quote 6 10)) as [price|e];
    [|by exists e].
  destruct (deserialize_utcdatetime_short bo (slice quote 10 18)) as [e He].
  { rewrite length_slice. lia. }
  exists e. cbn [mbind result_bind]. by rewrite He.
Qed.

(** A parsed dictionary has each pair once. *)
Lemma parse_quotes_loop_wf (bo : byteorder) (l : list bytes) :
  forall d d', dict_wf d -> parse_quotes_loop bo l d = Ok d' -> dict_wf d'.
Proof.
  induction l as [|c l IH]; intros d d' Hwf; cbn [parse_quotes_loop].
  - by intros [= <-].
  - destruct (parse_quote bo c) as [[iso entry]|e]; [|discriminate].
    apply IH. by apply dict_wf_set.
Qed.

Lemma parse_quotes_wf (bo : byteorder) (l : list bytes)
    (d : dict iso_pair (float * float)) :
  parse_quotes bo l = Ok d -> dict_wf d.
Proof. apply parse_quotes_loop_wf. apply NoDup_nil_2. Qed.

End codec_facts.

(** ** The quote store *)

Section store_facts.
Import Forex Design.
Context {G T : Type} {TS : Timestamp T}.
Implicit Types (self : Subscriber G T) (d new : quotes T) (iso : iso_pair).

(** One turn of the merge loop: the entry of its pair is inserted when
    absent, overwritten when the stored timestamp is [<] the incoming one,
    and kept otherwise; no other entry is touched, and [updated] is set
    exactly when the dictionary was written. *)
Lemma merge_quote_spec d (updated : bool) (out : list message) iso
    (price : float) (timestamp : T) :
  exists d1 updated1 out1,
    merge_quote (d, updated, out) (iso, (price, timestamp))
      = (d1, updated1, out1) /\
    (forall iso', iso' <> iso -> dict_get d1 iso' = dict_get d iso') /\
    dict_get d1 iso =
      match dict_get d iso with
      | None => Some (price, timestamp)
      | Some (p0, t0) =>
          if ts_lt t0 timestamp then Some (price, timestamp) else Some (p0, t0)
      end /\
    (updated1 = false -> d1 = d /\ updated = false) /\
    (updated1 = true -> updated = true \/ dict_get d1 iso <> dict_get d iso) /\
    (dict_wf d -> dict_wf d1).
Proof.
  unfold merge_quote. destruct (dict_get d iso) as [[p0 t0]|] eqn:Hget.
  - destruct (ts_lt t0 timestamp) eqn:Hlt.
    + eexists _, _, _. split; [done|]. split.
      { intros iso' Hne. by apply dict_get_set_ne. }
      split; [apply dict_get_set_eq|]. split; [done|]. split.
      * intros _. right. rewrite dict_get_set_eq. intros [= -> ->].
        rewrite ts_lt_irrefl in Hlt. discriminate.
      * apply dict_wf_set.
    + eexists _, _, _. split; [done|]. split; [done|]. split; [done|].
      split; [done|]. split; [|done]. intros ->. by left.
  - eexists _, _, _. split; [done|]. split.
    { intros iso' Hne. by apply dict_get_set_ne. }
    split; [apply dict_get_set_eq|]. split; [done|]. split.
    + intros _. right. by rewrite dict_get_set_eq.
    + apply dict_wf_set.
Qed.

(** The whole merge loop over a batch, which as a dictionary has each pair
    once. *)
Lemma merge_fold_spec new :
  dict_wf new ->
  forall d (updated : bool) (out : list message),
  exists d' updated' out',
    foldl merge_quote (d, updated, out) new = (d', updated', out') /\
    (forall iso, iso ∉ keys new -> dict_get d' iso = dict_get d iso) /\
    (forall iso price timestamp,
       (iso, (price, timestamp)) ∈ new ->
       dict_get d' iso =
         match dict_get d iso with
         | None => Some (price, timestamp)
         | Some (p0, t0) =>
             if ts_lt t0 timestamp then Some (price, timestamp)
             else Some (p0, t0)
         end) /\
    (updated' = false -> d' = d /\ updated = false) /\
    (updated' = true -> updated = true \/ d' <> d) /\
    (dict_wf d -> dict_wf d').
Proof.
  unfold dict_wf, keys.
  induction new as [|[iso [price timestamp]] new IH]; intros Hnd d updated out.
  - exists d, updated, out. split; [done|]. split; [done|].
    split; [by intros ??? ?%elem_of_nil|]. split; [done|]. split; [|done].
    intros ->. by left.
  - rewrite fmap_cons in Hnd. apply NoDup_cons in Hnd as [Hiso Hnd].
    cbn [fst] in Hiso.
    destruct (merge_quote_spec d updated out iso price timestamp)
      as (d1 & u1 & out1 & Hstep & Hother1 & Hiso1 & Hkeep1 & Hch1 & Hwf1).
    destruct (IH Hnd d1 u1 out1)
      as (d' & u' & out' & Hfold & Hother & Hin & Hkeep & Hch & Hwf).
    exists d', u', out'. cbn [foldl]. rewrite Hstep. split; [done|].
    split; [|split; [|split; [|split]]].
    + intros iso' Hnin. rewrite fmap_cons in Hnin.
      apply not_elem_of_cons in Hnin as [Hne Hnin].
      rewrite (Hother _ Hnin). by apply Hother1.
    + intros iso' price' timestamp' [Heq|Hin']%elem_of_cons.
      * injection Heq as -> -> ->. by rewrite (Hother _ Hiso).
      * rewrite (Hin _ _ _ Hin'). rewrite Hother1; [done|].
        intros ->. apply Hiso. by apply (list_elem_of_fmap_2 fst) in Hin'.
    + intros Hu'. destruct (Hkeep Hu') as [-> Hu1]. by apply Hkeep1.
    + intros Hu'. destruct (Hch Hu') as [Hu1|Hne].
      * destruct (Hch1 Hu1) as [?|Hne]; [by left|]. right.
        intros ->. apply Hne. by rewrite <- (Hother _ Hiso).
      * destruct u1 eqn:Hu1.
        -- destruct (Hch1 eq_refl) as [?|Hne1]; [by left|]. right.
           intros ->. apply Hne1. by rewrite <- (Hother _ Hiso).
        -- destruct (Hkeep1 eq_refl) as [-> _]. by right.
    + intros Hd. apply Hwf, Hwf1, Hd.
Qed.

(** C9, the code as it is.  [update_quotes_dict] computes [updated] and
    has no [return] statement: whatever the store and the batch, the call
    evaluates to [None] and to no boolean. *)
Theorem update_quotes_dict_returns_None new self :
  (update_quotes_dict new self).1 = PyNone.
Proof.
  unfold update_quotes_dict.
  by destruct (foldl merge_quote _ new) as [[d updated] out].
Qed.

(** C2.  Merging one quote inserts its entry when the pair is absent,
    overwrites the stored entry when the stored timestamp is strictly older
    than the incoming one, and otherwise leaves the whole store as it was;
    the entries of the other pairs are never touched. *)
Theorem update_quotes_dict_newest_wins self iso (price : float)
    (timestamp : T) :
  let self' := (update_quotes_dict [(iso, (price, timestamp))] self).2 in
  (dict_get (quotes_dict self) iso = None ->
   dict_get (quotes_dict self') iso = Some (price, timestamp)) /\
  (forall p0 t0, dict_get (quotes_dict self) iso = Some (p0, t0) ->
     ts_lt t0 timestamp = true ->
     dict_get (quotes_dict self') iso = Some (price, timestamp)) /\
  (forall p0 t0, dict_get (quotes_dict self) iso = Some (p0, t0) ->
     ts_lt t0 timestamp = false ->
     quotes_dict self' = quotes_dict self) /\
  (forall iso', iso' <> iso ->
     dict_get (quotes_dict self') iso' = dict_get (quotes_dict self) iso').
Proof.
  unfold update_quotes_dict. cbn [foldl].
  destruct (merge_quote_spec (quotes_dict self) false (stdout self) iso price
              timestamp)
    as (d1 & u1 & out1 & Hstep & Hother & Hiso & Hkeep & _).
  rewrite Hstep. cbn [snd quotes_dict]. split; [|split; [|split]].
  - intros Hnone. by rewrite Hiso, Hnone.
  - intros p0 t0 Hsome Hlt. by rewrite Hiso, Hsome, Hlt.
  - intros p0 t0 Hsome Hlt. revert Hstep. unfold merge_quote.
    rewrite Hsome, Hlt. by intros [= <- _ _].
  - done.
Qed.

(** The same for a whole batch, pair by pair. *)
Lemma update_quotes_dict_batch new self iso :
  dict_wf new ->
  let self' := (update_quotes_dict new self).2 in
  dict_get (quotes_dict self') iso =
    match dict_get new iso, dict_get (quotes_dict self) iso with
    | None, stored => stored
    | Some incoming, None => Some incoming
    | Some (price, timestamp), Some (p0, t0) =>
        if ts_lt t0 timestamp then Some (price, timestamp) else Some (p0, t0)
    end.
Proof.
  intros Hwf. unfold update_quotes_dict.
  destruct (merge_fold_spec new Hwf (quotes_dict self) false (stdout self))
    as (d' & u' & out' & -> & Hother & Hin & _).
  cbn [snd quotes_dict].
  destruct (dict_get new iso) as [[price timestamp]|] eqn:Hnew.
  - rewrite (Hin iso price timestamp) by by apply dict_get_elem_of.
    by destruct (dict_get (quotes_dict self) iso) as [[p0 t0]|].
  - apply Hother. by apply dict_get_None.
Qed.

Lemma update_quotes_dict_wf new self :
  dict_wf new -> dict_wf (quotes_dict self) ->
  dict_wf (quotes_dict (update_quotes_dict new self).2).
Proof.
  intros Hwf Hself. unfold update_quotes_dict.
  destruct (merge_fold_spec new Hwf (quotes_dict self) false (stdout self))
    as (d' & u' & out' & -> & _ & _ & _ & _ & Hd).
  by apply Hd.
Qed.

(** *** Eviction *)

(** When the scan of the store completes, it has collected, in order, the
    pairs whose age exceeds the window, each once. *)
Lemma stale_scan_Ok (now : datetime) (items : quotes T) :
  forall (acc : list iso_pair) (out : list message) r out',
  stale_scan now items acc out = (Ok r, out') ->
  exists st, r = acc ++ st /\ st `sublist_of` keys items /\
    forall iso, iso ∈ st <->
      exists price timestamp age,
        (iso, (price, timestamp)) ∈ items /\
        datetime_sub now timestamp = Ok age /\ older_than_window age = true.
Proof.
  unfold keys. induction items as [|[iso0 [price0 ts0]] items IH];
    intros acc out r out'; cbn [stale_scan].
  - intros [= <- _]. exists []. split; [by rewrite (right_id_L [] (++))|].
    split; [done|]. intros iso. split; [by intros ?%elem_of_nil|].
    by intros (? & ? & ? & ?%elem_of_nil & _).
  - destruct (datetime_sub now ts0) as [age0|e] eqn:Hsub; [|discriminate].
    destruct (older_than_window age0) eqn:Hold.
    + intros (st & -> & Hsub' & Hst)%IH. exists (iso0 :: st).
      split; [by rewrite <- (assoc_L (++))|]. split.
      { rewrite fmap_cons. by apply sublist_skip. }
      intros iso. rewrite elem_of_cons, Hst. split.
      * intros [->|(price & ts & age & Hin & Hage)].
        -- exists price0, ts0, age0. split; [left | done].
        -- exists price, ts, age. split; [by right | done].
      * intros (price & ts & age & [Heq|Hin]%elem_of_cons & Hage).
        -- injection Heq as -> _ _. by left.
        -- right. by exists price, ts, age.
    + intros (st & -> & Hsub' & Hst)%IH. exists st. split; [done|]. split.
      { rewrite fmap_cons. by apply sublist_cons. }
      intros iso. rewrite Hst. split.
      * intros (price & ts & age & Hin & Hage).
        exists price, ts, age. split; [by right | done].
      * intros (price & ts & age & [Heq|Hin]%elem_of_cons & Hs & Ho).
        -- injection Heq as -> -> ->. rewrite Hsub in Hs.
           injection Hs as <-. congruence.
        -- by exists price, ts, age.
Qed.

(** Deleting distinct keys of a well-formed store succeeds and removes
    exactly them. *)
Lemma delete_all_spec (st : list iso_pair) :
  forall d,
  dict_wf d -> NoDup st -> (forall iso, iso ∈ st -> iso ∈ keys d) ->
  exists d', delete_all d st = (None, d') /\ dict_wf d' /\
    forall iso,
      dict_get d' iso = if decide (iso ∈ st) then None else dict_get d iso.
Proof.
  induction st as [|iso0 st IH]; intros d Hwf Hnd Hin.
  - exists d. split; [done|]. split; [done|]. intros iso.
    by rewrite decide_False by apply not_elem_of_nil.
  - apply NoDup_cons in Hnd as [Hiso0 Hnd].
    destruct (dict_del_spec d iso0 Hwf) as (d1 & Hdel & Hwf1 & Hget1 & Hkeys1).
    { apply Hin. left. }
    destruct (IH d1 Hwf1 Hnd) as (d' & Hall & Hwf' & Hget').
    { intros iso Hiso. apply Hkeys1. split; [apply Hin; by right|].
      by intros ->. }
    exists d'. cbn [delete_all]. rewrite Hdel. split; [done|].
    split; [done|]. intros iso. rewrite Hget', Hget1.
    destruct (decide (iso = iso0)) as [->|Hne].
    + rewrite (decide_True (P := iso0 ∈ iso0 :: st)) by left.
      by case_decide.
    + destruct (decide (iso ∈ st)) as [Hst|Hst].
      * by rewrite decide_True by by right.
      * rewrite decide_False; [done|]. by intros [?|?]%elem_of_cons.
Qed.

(** Whatever the scan does, eviction either leaves the store and the
    queue as they were, or removes at least one entry and pushes the
    store that results. *)
Lemma remove_stale_quotes_queue (now : datetime) self :
  dict_wf (quotes_dict self) ->
  let self' := (remove_stale_quotes now self).2 in
  (quotes_dict self' = quotes_dict self /\
   quotes_queue self' = quotes_queue self) \/
  (quotes_dict self' <> quotes_dict self /\
   quotes_queue self' = quotes_queue self ++ [quotes_dict self']).
Proof.
  intros Hwf. unfold remove_stale_quotes.
  destruct (stale_scan now (quotes_dict self) [] (stdout self))
    as [[st|e] out] eqn:Hscan; [|by left].
  apply stale_scan_Ok in Hscan as (st' & -> & Hsub & Hst).
  cbn [app] in *. destruct st' as [|iso0 st'].
  { by left. }
  destruct (delete_all_spec (iso0 :: st') (quotes_dict self) Hwf)
    as (d' & -> & Hwf' & Hget').
  { by eapply sublist_NoDup. }
  { intros iso ?. by eapply elem_of_sublist. }
  cbn [snd quotes_dict quotes_queue].
  right. split; [|done]. intros Heq.
  assert (Hin : iso0 ∈ keys (quotes_dict self)).
  { eapply elem_of_sublist; [left | done]. }
  specialize (Hget' iso0). rewrite decide_True in Hget' by left.
  rewrite Heq in Hget'. by apply dict_get_None in Hget'.
Qed.

Lemma remove_stale_quotes_wf (now : datetime) self :
  dict_wf (quotes_dict self) ->
  dict_wf (quotes_dict (remove_stale_quotes now self).2).
Proof.
  intros Hwf. unfold remove_stale_quotes.
  destruct (stale_scan now (quotes_dict self) [] (stdout self))
    as [[st|e] out] eqn:Hscan; [|done].
  apply stale_scan_Ok in Hscan as (st' & -> & Hsub & Hst). cbn [app] in *.
  destruct (delete_all_spec st' (quotes_dict self) Hwf) as (d' & -> & Hwf' & _).
  { by eapply sublist_NoDup. }
  { intros iso ?. by eapply elem_of_sublist. }
  done.
Qed.

(** C4.  A merge, and an eviction, that changes the quote store pushes
    onto the hand-off queue a snapshot equal to the store as the change
    left it; one that changes nothing pushes nothing. *)
Theorem snapshot_pushed_on_change new (now : datetime) self :
  dict_wf new -> dict_wf (quotes_dict self) ->
  (let self' := (update_quotes_dict new self).2 in
   (quotes_dict self' <> quotes_dict self ->
    quotes_queue self' = quotes_queue self ++ [quotes_dict self']) /\
   (quotes_dict self' = quotes_dict self ->
    quotes_queue self' = quotes_queue self)) /\
  (let self' := (remove_stale_quotes now self).2 in
   (quotes_dict self' <> quotes_dict self ->
    quotes_queue self' = quotes_queue self ++ [quotes_dict self']) /\
   (quotes_dict self' = quotes_dict self ->
    quotes_queue self' = quotes_queue self)).
Proof.
  intros Hnew Hwf. split.
  - unfold update_quotes_dict.
    destruct (merge_fold_spec new Hnew (quotes_dict self) false (stdout self))
      as (d' & u' & out' & -> & _ & _ & Hkeep & Hch & _).
    cbn [snd quotes_dict quotes_queue]. destruct u'.
    + split; [done|]. intros ->. by destruct (Hch eq_refl).
    + destruct (Hkeep eq_refl) as [-> _]. by split.
  - destruct (remove_stale_quotes_queue now self Hwf) as [[Hd Hq]|[Hd Hq]];
      cbn zeta; by split.
Qed.

End store_facts.

(** ** A store of [datetime] timestamps *)

Section datetime_facts.
Import Forex Design.
Context {G : Type}.
Implicit Types (self : Subscriber G datetime) (d : quotes datetime).

Lemma stale_scan_datetime (now : datetime) d :
  forall (acc : list iso_pair) (out : list message),
  exists r out', stale_scan now d acc out = (Ok r, out').
Proof.
  induction d as [|[iso [price observed]] d IH]; intros acc out.
  - by exists acc, out.
  - cbn [stale_scan datetime_sub datetime_Timestamp].
    destruct (older_than_window (now - observed)); apply IH.
Qed.

(** What eviction does to a store of [datetime]s.  For every such store
    and current time, eviction returns normally, and in the store it leaves
    every entry older than 1.5 seconds is absent and every entry of age at
    most 1.5 seconds is there with its price and timestamp. *)
Lemma remove_stale_quotes_evicts (now : datetime) self :
  dict_wf (quotes_dict self) ->
  exists self',
    remove_stale_quotes now self = (Ok PyNone, self') /\
    forall iso (price : float) (observed : datetime),
      dict_get (quotes_dict self) iso = Some (price, observed) ->
      (1500000 < now - observed -> dict_get (quotes_dict self') iso = None) /\
      (now - observed <= 1500000 ->
       dict_get (quotes_dict self') iso = Some (price, observed)).
Proof.
  intros Hwf. unfold remove_stale_quotes.
  destruct (stale_scan_datetime now (quotes_dict self) [] (stdout self))
    as (r & out & Hscan).
  rewrite Hscan. apply stale_scan_Ok in Hscan as (st & -> & Hsub & Hst).
  cbn [app] in *.
  destruct (delete_all_spec st (quotes_dict self) Hwf) as (d' & -> & _ & Hget').
  { by eapply sublist_NoDup. }
  { intros iso ?. by eapply elem_of_sublist. }
  eexists. split; [done|]. cbn [quotes_dict].
  intros iso price observed Hget. rewrite Hget'. split.
  - intros Hold. rewrite decide_True; [done|]. apply Hst.
    exists price, observed, (now - observed).
    split; [by apply dict_get_elem_of|]. split; [done|].
    unfold older_than_window. lia.
  - intros Hfresh. rewrite decide_False; [done|].
    intros (price' & observed' & age & Hin & [= <-] & Hold)%Hst.
    apply (dict_get_wf_elem_of _ _ _ Hwf) in Hin.
    rewrite Hget in Hin. injection Hin as <- <-.
    unfold older_than_window in Hold. lia.
Qed.

(** [math.log10] does not raise on a positive price. *)
Lemma math_log10_positive (libm_log10 : float -> float) (price : float) :
  positive_price price -> math_log10 libm_log10 price = Ok (libm_log10 price).
Proof.
  unfold positive_price, math_log10. rewrite ltb_spec, leb_spec.
  unfold SFltb, SFleb. replace (Prim2SF 0) with (S754_zero false) by done.
  destruct (Prim2SF price) as [s|s| |s m e]; cbn; try discriminate;
    destruct s; try discriminate; done.
Qed.

(** What the graph builder does with a snapshot of [datetime]s and
    positive prices.  The graph it builds is the empty graph with, for each
    quote in turn, the two edges base->quote of weight
    [-log10 price] and quote->base of weight [log10 price] added when the
    quote is at most 1.5 seconds old at the moment the loop reaches it, and
    no edge added when it is older. *)
Lemma build_graph_edges (add_edge : G -> string -> string -> float -> G)
    (libm_log10 : float -> float) (utcnow : nat -> datetime) (n : nat)
    (snapshot : quotes datetime) (g : G) :
  Forall (fun item => positive_price item.2.1) snapshot ->
  build_graph add_edge libm_log10 utcnow n snapshot g =
  Ok (add_edges add_edge g
        (concat (imap (fun i item =>
                         quote_edges libm_log10 (utcnow (n + i)%nat) item)
                   snapshot))).
Proof.
  intros Hpos. revert n g.
  induction Hpos as [|[[base counter] [price observed]] snapshot Hprice _ IH];
    intros n g; [done|].
  cbn [build_graph datetime_sub datetime_Timestamp mbind result_bind].
  rewrite imap_cons. cbn [concat quote_edges]. rewrite Nat.add_0_r.
  unfold within_window.
  assert (Hshift : imap ((fun i item =>
              quote_edges libm_log10 (utcnow (n + i)%nat) item) ∘ S) snapshot =
            imap (fun i item =>
              quote_edges libm_log10 (utcnow (S n + i)%nat) item) snapshot).
  { apply imap_ext. intros i item _. cbn [compose]. do 2 f_equal. lia. }
  rewrite Hshift. destruct (utcnow n - observed <=? 1500000).
  - rewrite (math_log10_positive _ _ Hprice).
    cbn [mbind result_bind fst snd]. rewrite IH.
    unfold add_edges. by rewrite foldl_app.
  - apply IH.
Qed.

End datetime_facts.

(** ** Profit evaluation *)

Section profit_facts.
Import Forex Design.
Context {T : Type}.
Implicit Types (d : quotes T).

(** A leg whose pair is in the store in neither direction is reported, and
    then the loop goes on to its multiplication: with the rate of the
    previous leg when there is one. *)
Lemma profit_loop_missing_leg d (curr_pair : iso_pair)
    (rest : list iso_pair) (curr_money rate : float) (out : list message) :
  dict_get d curr_pair = None ->
  dict_get d (curr_pair.2, curr_pair.1) = None ->
  profit_loop d (curr_pair :: rest) curr_money (Some rate) out =
  profit_loop d rest (curr_money * rate)%float (Some rate)
    (out ++ [CouldNotFindPrice curr_pair;
             Conversion curr_pair rate (curr_money * rate)%float]).
Proof.
  intros Hdirect Hreverse. cbn [profit_loop]. unfold lookup_rate.
  rewrite Hdirect, Hreverse. by rewrite <- (assoc_L (++)).
Qed.

(** With no previous leg, [curr_rate] is an unbound name. *)
Lemma profit_loop_missing_first_leg d (curr_pair : iso_pair)
    (rest : list iso_pair) (curr_money : float) (out : list message) :
  dict_get d curr_pair = None ->
  dict_get d (curr_pair.2, curr_pair.1) = None ->
  profit_loop d (curr_pair :: rest) curr_money None out =
  (Raise UnboundLocalError, out ++ [CouldNotFindPrice curr_pair]).
Proof.
  intros Hdirect Hreverse. cbn [profit_loop]. unfold lookup_rate.
  by rewrite Hdirect, Hreverse.
Qed.

End profit_facts.

(** C1, the code as it is.  On the cycle A, B, C, A the legs B->C and C->A
    are in the store in neither direction; each is reported and then
    multiplies the amount by the rate 2.0 of the leg A->B, so that 200
    becomes 400 and then 800 where it should have stayed 200.  On the
    cycle C, A, B, C the first leg is the missing one, and the evaluation
    ends with [UnboundLocalError]. *)
Theorem profit_loop_missing_rate :
  Forex.profit_loop Examples.ab_store (Forex.legs ["A"; "B"; "C"; "A"]%string)
    100 None [] =
  (Ok 800%float,
   [Forex.Conversion ("A", "B")%string 2 200;
    Forex.CouldNotFindPrice ("B", "C")%string;
    Forex.Conversion ("B", "C")%string 2 400;
    Forex.CouldNotFindPrice ("C", "A")%string;
    Forex.Conversion ("C", "A")%string 2 800]) /\
  Forex.profit_loop Examples.ab_store
    (Forex.legs ["C"; "A"; "B"; "C"]%string)
    100 None [] =
  (Raise UnboundLocalError, [Forex.CouldNotFindPrice ("C", "A")%string]).
Proof. split; reflexivity. Qed.

(** ** Cycle reconstruction *)

Section cycle_facts.
Import Forex Design.
Implicit Types (predecessor : predecessors) (w cycle : list string).

(** The loop, one turn at a time. *)
Lemma walk_back_unfold predecessor cycle (current : string) :
  walk_back predecessor cycle current =
  if decide (current ∈ cycle) then Ok (cycle, current)
  else match dict_get predecessor current with
       | None => Raise KeyError
       | Some next => walk_back predecessor (cycle ++ [current]) next
       end.
Proof.
  funelim (walk_back predecessor cycle current).
  all: destruct (decide (current ∈ cycle)); try done.
  all: match goal with
       | Hget : dict_get _ _ = _ |- _ => by rewrite Hget
       end.
Qed.

(** Each vertex of the walk is followed by its predecessor. *)
Lemma predecessor_walk_step predecessor (n : nat) :
  forall (x : string) (j : nat) (a b : string),
  predecessor_walk predecessor n x !! j = Some a ->
  predecessor_walk predecessor n x !! S j = Some b ->
  dict_get predecessor a = Some b.
Proof.
  induction n as [|n IH]; intros x j a b Ha Hb.
  - by destruct j.
  - cbn [predecessor_walk] in Ha, Hb.
    destruct (dict_get predecessor x) as [y|] eqn:Hx; [|by destruct j].
    destruct j as [|j].
    + injection Ha as <-. cbn [lookup list_lookup] in Hb.
      destruct n; cbn [predecessor_walk] in Hb; by injection Hb as <-.
    + by apply (IH y j).
Qed.

(** Before the first repeated vertex the walk has no vertex twice. *)
Lemma no_repeat_NoDup w (n : nat) :
  (n <= length w)%nat ->
  (forall m, (m < n)%nat -> ~ repeats_at w m) ->
  NoDup (take n w).
Proof.
  induction n as [|n IH]; intros Hlen Hnone.
  - rewrite take_0. apply NoDup_nil_2.
  - destruct (lookup_lt_is_Some_2 w n) as [y Hy]; [lia|].
    rewrite (take_S_r _ _ _ Hy). apply NoDup_app. split; [|split].
    + apply IH; [lia|]. intros m ?. apply Hnone. lia.
    + intros z Hz Hzy%list_elem_of_singleton. subst z.
      apply (Hnone n); [lia|]. by exists y.
    + apply NoDup_singleton.
Qed.

Lemma first_repeat_Some w (n : nat) :
  first_repeat w = Some n ->
  (n < length w)%nat /\ repeats_at w n /\
  forall m, (m < n)%nat -> ~ repeats_at w m.
Proof.
  unfold first_repeat.
  destruct (list_find (repeats_at w) (seq 0 (length w))) as [[i m]|] eqn:Hfind;
    [|discriminate].
  intros [= <-]. apply list_find_Some in Hfind as (Hi & Hrep & Hmin).
  apply lookup_seq in Hi as [-> Hi]. cbn [Nat.add fst] in *.
  split; [done|]. split; [done|]. intros m Hm. apply (Hmin m m); [|done].
  apply lookup_seq. split; [done | lia].
Qed.

Lemma list_find_take (x : string) w (n s : nat) (y : string) :
  list_find (fun z => z = x) w = Some (s, y) -> (s < n)%nat ->
  list_find (fun z => z = x) (take n w) = Some (s, y).
Proof.
  intros (Hs & Hy & Hmin)%list_find_Some Hsn. apply list_find_Some.
  split; [by rewrite lookup_take_lt|]. split; [done|].
  intros j z Hj Hjs. apply (Hmin j); [|done].
  by rewrite lookup_take_lt in Hj by lia.
Qed.

(** From position [j] of the walk the loop runs to the first repeated
    vertex, at position [j + k]. *)
Lemma walk_back_reaches predecessor (u v : string) (n : nat) (x : string) :
  let w := edge_walk predecessor (u, v) in
  (n < length w)%nat -> w !! n = Some x -> x ∈ take n w ->
  (forall m, (m < n)%nat -> ~ repeats_at w m) ->
  forall (k j : nat) (c : string),
    n = (j + k)%nat -> (1 <= j)%nat -> w !! j = Some c ->
    walk_back predecessor (take j w) c = Ok (take n w, x).
Proof.
  intros w Hlen Hx Hin Hnone. induction k as [|k IH]; intros j c -> Hj Hc.
  - rewrite Nat.add_0_r in *. rewrite Hc in Hx. injection Hx as ->.
    by rewrite walk_back_unfold, decide_True.
  - rewrite walk_back_unfold. rewrite decide_False.
    2: { intros Hrep. apply (Hnone j); [lia|]. by exists c. }
    destruct (lookup_lt_is_Some_2 w (S j)) as [c' Hc']; [lia|].
    destruct j as [|j]; [lia|].
    rewrite (predecessor_walk_step predecessor (S (length predecessor))
               u j c c')
      by done.
    rewrite <- (take_S_r _ _ _ Hc). apply IH; [lia | lia | done].
Qed.

(** C5, as amended.  For a negative edge [(u, v)] with [u <> v] whose
    predecessor walk stays within the map until a vertex comes again, the
    reconstruction returns the reverse of the closed suffix of the walk
    [v, u, predecessor[u], ...] truncated at its first repeated vertex: a
    sequence that starts and ends with the same vertex, with no other
    vertex twice. *)
Theorem find_negative_cycle_path_closed predecessor (u v : string)
    (res : list string) :
  u <> v ->
  closed_cycle predecessor (u, v) = Some res ->
  find_negative_cycle_path predecessor (Some (u, v)) = Ok (Some res) /\
  exists (x : string) (middle : list string),
    res = x :: middle ++ [x] /\ NoDup (x :: middle).
Proof.
  intros Huv. unfold closed_cycle. set (w := edge_walk predecessor (u, v)).
  destruct (first_repeat w) as [n|] eqn:Hfirst; [|discriminate].
  cbn [mbind option_bind].
  destruct (w !! n) as [x|] eqn:Hx; [|discriminate]. cbn [mbind option_bind].
  destruct (list_find (fun y => y = x) w) as [[s x']|] eqn:Hfind;
    [|discriminate].
  cbn [mbind option_bind]. intros [= <-].
  apply first_repeat_Some in Hfirst as (Hlen & (x0 & Hx0 & Hin) & Hnone).
  rewrite Hx in Hx0. injection Hx0 as <-.
  assert (Hnd : NoDup (take n w)) by (apply no_repeat_NoDup; [lia | done]).
  assert (Hn : (2 <= n)%nat).
  { destruct n as [|[|n]]; [by apply elem_of_nil in Hin | | lia].
    apply list_elem_of_singleton in Hin. cbn in Hx, Hin. congruence. }
  assert (Hs : (s < n)%nat).
  { apply list_elem_of_lookup in Hin as [i Hi].
    pose proof (lookup_lt_Some _ _ _ Hi) as Hi'.
    rewrite length_take in Hi'. rewrite lookup_take_lt in Hi by lia.
    apply list_find_Some in Hfind as (_ & _ & Hmin).
    destruct (decide (s <= i)%nat); [lia|].
    exfalso. apply (Hmin i x); [done | lia | done]. }
  pose proof Hfind as (Hsx & -> & _)%list_find_Some.
  destruct (lookup_lt_is_Some_2 w 2) as [c Hc]; [lia|].
  assert (Hu : dict_get predecessor u = Some c).
  { by apply (predecessor_walk_step predecessor (S (length predecessor)) u 0). }
  assert (Hdrop : drop s (take n w) = x :: drop (S s) (take n w)).
  { apply drop_S. by rewrite lookup_take_lt. }
  assert (Hwalk : walk_back predecessor [v; u] c = Ok (take n w, x)).
  { apply (walk_back_reaches predecessor u v n x Hlen Hx Hin Hnone (n - 2) 2 c);
      [lia | lia | done]. }
  split.
  - unfold find_negative_cycle_path. rewrite Hu, Hwalk.
    cbn [mbind result_bind]. unfold index.
    rewrite (list_find_take x w n s x Hfind Hs). cbn [mbind result_bind].
    rewrite Hdrop. do 3 f_equal. rewrite <- Hdrop.
    rewrite take_drop_commute. replace (s + (S n - s))%nat with (S n) by lia.
    rewrite (take_S_r _ _ _ Hx). rewrite drop_app_le; [done|].
    rewrite length_take. lia.
  - exists x, (reverse (drop (S s) (take n w))). split.
    + rewrite take_drop_commute. replace (s + (S n - s))%nat with (S n) by lia.
      rewrite (take_S_r _ _ _ Hx), drop_app_le by (rewrite length_take; lia).
      rewrite Hdrop. by rewrite reverse_snoc, reverse_cons.
    + apply (NoDup_Permutation_proper (x :: drop (S s) (take n w))).
      { constructor. symmetry. apply reverse_Permutation. }
      rewrite <- Hdrop. exact (sublist_NoDup _ _ Hnd (sublist_drop _ _)).
Qed.

Lemma predecessor_walk_head predecessor (m : nat) (c : string) :
  take 1 (predecessor_walk predecessor m c) = [c].
Proof. by destruct m. Qed.

(** What the loop has done when it exits normally. *)
Lemma walk_back_Ok predecessor cycle (current : string) :
  forall cycle' (x : string),
  walk_back predecessor cycle current = Ok (cycle', x) ->
  exists ext,
    cycle' = (cycle ++ ext) /\ x ∈ cycle' /\ NoDup ext /\
    (forall y, y ∈ ext -> (y ∉ cycle) /\ y ∈ keys predecessor) /\
    forall m, (length ext <= m)%nat ->
      take (S (length ext)) (predecessor_walk predecessor m current)
      = ext ++ [x].
Proof.
  funelim (walk_back predecessor cycle current); intros cycle' x Hrun.
  - injection Hrun as <- <-. exists []. rewrite (right_id_L [] (++)).
    split; [done|]. split; [done|]. split; [apply NoDup_nil_2|].
    split; [by intros y ?%elem_of_nil|]. intros m _.
    apply predecessor_walk_head.
  - match goal with
    | IH : forall _ _, _ -> exists _, _ |- _ =>
        destruct (IH _ _ Hrun) as (ext & -> & Hx & Hnd & Hext & Hwalk)
    end.
    exists (current :: ext). rewrite <- (assoc_L (++)) in *. cbn [app] in *.
    split; [done|]. split; [done|]. split.
    { apply NoDup_cons. split; [|done]. intros Hin.
      destruct (Hext _ Hin) as [Hnin _]. apply Hnin.
      apply elem_of_app. right. left. }
    split.
    { intros y [->|Hy]%elem_of_cons.
      - split; [done|]. by eapply dict_get_Some_keys.
      - destruct (Hext _ Hy) as [Hnin Hkey]. split; [|done].
        intros ?. apply Hnin. apply elem_of_app. by left. }
    intros [|m] Hm; cbn [length] in Hm; [lia|].
    cbn [predecessor_walk length]. rewrite Hget. cbn [take].
    f_equal. apply Hwalk. lia.
  - discriminate.
Qed.
Lemma NoDup_not_repeats w (m : nat) :
  NoDup w -> ~ repeats_at w m.
Proof.
  intros Hnd (y & Hy & Hin).
  apply list_elem_of_lookup in Hin as [j Hj].
  pose proof (lookup_lt_Some _ _ _ Hj) as Hlt. rewrite length_take in Hlt.
  rewrite lookup_take_lt in Hj by lia.
  pose proof (NoDup_lookup _ _ _ _ Hnd Hj Hy). lia.
Qed.

Lemma repeats_at_prefix w1 w2 (m : nat) :
  (m < length w1)%nat -> repeats_at (w1 ++ w2) m -> repeats_at w1 m.
Proof.
  intros Hm (y & Hy & Hin). exists y.
  rewrite lookup_app_l in Hy by done. split; [done|].
  by rewrite take_app_le in Hin by lia.
Qed.

(** The other direction: what the reconstruction returns for an edge with
    [u <> v] is the closed cycle of the walk. *)
Lemma find_negative_cycle_path_Ok predecessor (u v : string)
    (res : list string) :
  u <> v ->
  find_negative_cycle_path predecessor (Some (u, v)) = Ok (Some res) ->
  closed_cycle predecessor (u, v) = Some res.
Proof.
  intros Huv. unfold find_negative_cycle_path.
  destruct (dict_get predecessor u) as [c|] eqn:Hu; [|discriminate].
  destruct (walk_back predecessor [v; u] c) as [[cycle x]|e] eqn:Hrun;
    [|discriminate].
  cbn [mbind result_bind]. unfold index.
  destruct (list_find (fun y => y = x) cycle) as [[s x']|] eqn:Hfind;
    [|discriminate].
  cbn [mbind result_bind].
  destruct (drop s cycle) as [|first tl] eqn:Hdrop; [discriminate|].
  intros [= <-].
  apply walk_back_Ok in Hrun as (ext & -> & Hx & Hnd & Hext & Hwalk).
  (* the cycle has no vertex twice *)
  assert (Hcycle : NoDup ([v; u] ++ ext)).
  { apply NoDup_app. split; [|split; [|done]].
    - apply NoDup_cons. split; [|apply NoDup_singleton].
      by intros ->%list_elem_of_singleton.
    - intros y Hy Hy'. by destruct (Hext _ Hy'). }
  (* the walk is long enough to hold it *)
  assert (Hlen : (S (length ext) <= length predecessor)%nat).
  { rewrite <- (length_fmap fst predecessor).
    change (S (length ext)) with (length (u :: ext)).
    apply submseteq_length, NoDup_submseteq.
    - apply NoDup_cons. split; [|done]. intros Hin.
      destruct (Hext _ Hin) as [Hnin _]. apply Hnin. right. left.
    - intros y [->|Hy]%elem_of_cons.
      + by eapply dict_get_Some_keys.
      + by destruct (Hext _ Hy). }
  assert (Hw : exists rest,
    edge_walk predecessor (u, v) = ([v; u] ++ ext) ++ [x] ++ rest).
  { exists (drop (S (length ext))
              (predecessor_walk predecessor (length predecessor) c)).
    unfold edge_walk. cbn [fst snd predecessor_walk]. rewrite Hu.
    cbn [app]. do 2 f_equal.
    change (x :: ?l) with ([x] ++ l).
    rewrite (assoc_L (++) ext), <- (Hwalk (length predecessor)) by lia.
    by rewrite take_drop. }
  destruct Hw as [rest Hw]. set (cycle := [v; u] ++ ext) in *.
  unfold closed_cycle. rewrite Hw.
  assert (Hfirst : first_repeat (cycle ++ [x] ++ rest) = Some (length cycle)).
  { unfold first_repeat.
    assert (Hl : list_find (repeats_at (cycle ++ [x] ++ rest))
                   (seq 0 (length (cycle ++ [x] ++ rest)))
                 = Some (length cycle, length cycle)); [|by rewrite Hl].
    apply list_find_Some. split; [|split].
    - apply lookup_seq. split; [done|]. rewrite !length_app. cbn. lia.
    - exists x. split.
      + by rewrite lookup_app_r, Nat.sub_diag.
      + by rewrite take_app_length.
    - intros j m [-> Hj]%lookup_seq Hlt Hrep. cbn [Nat.add] in *.
      apply repeats_at_prefix in Hrep; [|done].
      by apply (NoDup_not_repeats cycle j). }
  rewrite Hfirst. cbn [mbind option_bind].
  rewrite lookup_app_r, Nat.sub_diag by done. cbn [lookup list_lookup app].
  cbn [mbind option_bind].
  pose proof Hfind as (Hs & -> & Hmin)%list_find_Some.
  pose proof (lookup_lt_Some _ _ _ Hs) as Hslt.
  assert (Hl : list_find (fun y => y = x) (cycle ++ x :: rest) = Some (s, x)).
  { apply list_find_Some. split; [by rewrite lookup_app_l|]. split; [done|].
    intros j y Hj Hjs. apply (Hmin j); [|done].
    by rewrite lookup_app_l in Hj by lia. }
  rewrite Hl. cbn [mbind option_bind]. do 2 f_equal.
  rewrite take_drop_commute. replace (s + (S (length cycle) - s))%nat
    with (length cycle + 1)%nat by lia.
  rewrite take_app_add. cbn [take]. rewrite drop_app_le by lia.
  rewrite Hdrop. f_equal.
  assert (Hfst : (first :: tl) !! 0%nat = Some first) by done.
  rewrite <- Hdrop, lookup_drop, Nat.add_0_r, Hs in Hfst.
  by injection Hfst as ->.
Qed.

End cycle_facts.

(** ** Ingestion *)

Section ingestion_facts.
Import Forex Design.
Context {G : Type}.
Implicit Types (self : Subscriber G float).

Lemma parse_quotes_snoc (bo : byteorder) (records : list bytes)
    (chunk chunk' : bytes) :
  parse_quote bo chunk = parse_quote bo chunk' ->
  parse_quotes bo (records ++ [chunk]) = parse_quotes bo (records ++ [chunk']).
Proof.
  intros Heq. unfold parse_quotes. rewrite !parse_quotes_loop_app.
  destruct (parse_quotes_loop bo records []) as [d|e]; [|done].
  cbn [mbind result_bind parse_quotes_loop]. by rewrite Heq.
Qed.

Lemma parse_quotes_snoc_Raise (bo : byteorder) (records : list bytes)
    (chunk : bytes) (e : exn) :
  parse_quote bo chunk = Raise e ->
  exists e', parse_quotes bo (records ++ [chunk]) = Raise e'.
Proof.
  intros Hchunk. unfold parse_quotes. rewrite parse_quotes_loop_app.
  destruct (parse_quotes_loop bo records []) as [d|e']; [|by exists e'].
  exists e. cbn [mbind result_bind parse_quotes_loop]. by rewrite Hchunk.
Qed.

(** With the float timestamps of the codec in the store, the subtraction
    [current_time - timestamp] of the eviction scan is a [TypeError] at
    the first entry: nothing is removed and nothing is pushed. *)
Lemma remove_stale_quotes_float_store (now : datetime) self :
  quotes_dict self <> [] ->
  remove_stale_quotes now self = (Raise TypeError, self).
Proof.
  intros Hne. destruct self as [d path g queue out]. cbn [quotes_dict] in Hne.
  unfold remove_stale_quotes. cbn [quotes_dict stdout].
  by destruct d as [|[iso [price timestamp]] d].
Qed.

(** The same subtraction in the loop of [update_graph]: no graph is built
    from a snapshot that has a quote. *)
Lemma build_graph_float_snapshot
    (add_edge : G -> string -> string -> float -> G)
    (libm_log10 : float -> float) (utcnow : nat -> datetime) (n : nat)
    (snapshot : quotes float) (g : G) :
  snapshot <> [] ->
  build_graph add_edge libm_log10 utcnow n snapshot g = Raise TypeError.
Proof. by destruct snapshot as [|[iso [price timestamp]] snapshot]. Qed.

(** C7, as amended.  The trailing partial record of a datagram is handed
    to the decoder with the full records.  When it is shorter than 18
    bytes the decoder raises, the loop catches the exception, and the
    whole datagram is dropped: the store, the queue, the graph and the last
    path stay as they were, whatever full records the datagram had, and
    the loop goes on.  When it has 18 bytes or more it is decoded from its
    first 18 bytes, and the datagram is ingested exactly as if the partial
    record had been padded to a full one. *)
Theorem receive_updates_partial_record (bo : byteorder) (now : datetime)
    (records : list bytes) (partial : bytes) self :
  Forall (fun r => length r = 32%nat) records ->
  (0 < length partial < 32)%nat ->
  ((length partial < 18)%nat ->
   exists e,
     receive_updates_step bo now (concat records ++ partial) self =
     mk_Subscriber (quotes_dict self) (current_path self) (quotes_graph self)
       (quotes_queue self) (stdout self ++ [ErrorReceivingUpdates e])) /\
  ((18 <= length partial)%nat ->
   forall padding : bytes,
     length (partial ++ padding) = 32%nat ->
     receive_updates_step bo now (concat records ++ partial) self =
     receive_updates_step bo now (concat records ++ partial ++ padding) self).
Proof.
  intros Hrec Hlen. split.
  - intros Hshort. unfold receive_updates_step.
    rewrite (split_quotes_partial records partial Hrec Hlen).
    destruct (parse_quote_short bo partial Hshort) as [e He].
    destruct (parse_quotes_snoc_Raise bo records partial e He) as [e' ->].
    by exists e'.
  - intros Hlong padding Hpad. unfold receive_updates_step.
    rewrite (split_quotes_partial records partial Hrec Hlen).
    replace (concat records ++ partial ++ padding)
      with (concat (records ++ [partial ++ padding])).
    2: { rewrite concat_app. cbn [concat]. by rewrite (right_id_L [] (++)). }
    rewrite split_quotes_full.
    2: { apply Forall_app. split; [done|]. by apply Forall_singleton. }
    rewrite (parse_quotes_snoc bo records partial (partial ++ padding));
      [done|].
    rewrite <- (parse_quote_take bo partial).
    rewrite <- (parse_quote_take bo (partial ++ padding)).
    by rewrite take_app_le.
Qed.

End ingestion_facts.

(** ** The theorems at work on the sample data *)

Section instances.
Import Forex Design Examples.
#[local] Open Scope string_scope.

(** The tests of [older_than_window] and [within_window] at the edge of
    the window: 1,500,000 microseconds are the float 1.5, and one
    microsecond more is a greater float. *)
Example total_seconds_at_the_window :
  true_div 1500000 1000000 = 1.5%float /\
  (1.5 <? true_div 1500001 1000000)%float = true.
Proof. split; reflexivity. Qed.

Lemma three_quotes_wf : dict_wf three_quotes.
Proof. unfold dict_wf. by apply (bool_decide_unpack _). Defined.

(** A [datetime] is strictly newer when its count of microseconds is
    greater. *)
Lemma ts_lt_datetime (a b : datetime) : ts_lt a b = true <-> a < b.
Proof. apply Z.ltb_lt. Qed.

(** C2 on [three_quotes]: EUR/USD was observed at 0 s.  A quote of
    0.25 s overwrites it; USD/SEK of 0.5 s is not changed by a quote of the
    same instant. *)
Lemma update_quotes_dict_newest_wins_witness :
  dict_get
    (quotes_dict
       (update_quotes_dict [(("EUR", "USD"), (1.5%float, 250000))]
          three_quotes_subscriber).2) ("EUR", "USD")
  = Some (1.5%float, 250000) /\
  quotes_dict
    (update_quotes_dict [(("USD", "SEK"), (2%float, 500000))]
       three_quotes_subscriber).2
  = three_quotes.
Proof.
  split.
  - destruct (update_quotes_dict_newest_wins three_quotes_subscriber
                ("EUR", "USD") 1.5%float 250000) as (_ & Hnewer & _).
    apply (Hnewer 1.25%float 0); reflexivity.
  - destruct (update_quotes_dict_newest_wins three_quotes_subscriber
                ("USD", "SEK") 2%float 500000) as (_ & _ & Hsame & _).
    apply (Hsame 10%float 500000); reflexivity.
Defined.

(** C9 at work: a batch that inserts a pair into an empty store, and the
    call still evaluates to [None]. *)
Example update_quotes_dict_inserts_and_returns_None :
  update_quotes_dict [(("EUR", "USD"), (1.25%float, 0))] (@fresh datetime) =
  (PyNone,
   mk_Subscriber [(("EUR", "USD"), (1.25%float, 0))] None tt
     [[(("EUR", "USD"), (1.25%float, 0))]]
     [AddingNewQuotes ("EUR", "USD")]).
Proof. reflexivity. Qed.

(** Eviction of [three_quotes], a store of [datetime]s, at 2 s: EUR/USD
    is 2 s old and goes, USD/SEK is exactly 1.5 s old and stays, USD/JPY
    is 1 s old and stays. *)
Example remove_stale_quotes_evicts_datetimes :
  exists self',
    remove_stale_quotes 2000000 three_quotes_subscriber = (Ok PyNone, self') /\
    dict_get (quotes_dict self') ("EUR", "USD") = None /\
    dict_get (quotes_dict self') ("USD", "SEK") = Some (10%float, 500000) /\
    dict_get (quotes_dict self') ("USD", "JPY") = Some (100%float, 1000000).
Proof.
  destruct (remove_stale_quotes_evicts 2000000 three_quotes_subscriber
              three_quotes_wf) as (self' & Hrun & Hall).
  exists self'. split; [exact Hrun|]. split; [|split].
  - apply (Hall ("EUR", "USD") 1.25%float 0); [reflexivity | lia].
  - apply (Hall ("USD", "SEK") 10%float 500000); [reflexivity | lia].
  - apply (Hall ("USD", "JPY") 100%float 1000000); [reflexivity | lia].
Qed.

(** C4 on [three_quotes]: a merge of an outdated quote pushes nothing, and
    the eviction at 2 s pushes the store it leaves. *)
Lemma snapshot_pushed_on_change_witness :
  quotes_queue
    (update_quotes_dict [(("USD", "SEK"), (2%float, 500000))]
       three_quotes_subscriber).2 = [] /\
  quotes_queue (remove_stale_quotes 2000000 three_quotes_subscriber).2 =
  [quotes_dict (remove_stale_quotes 2000000 three_quotes_subscriber).2].
Proof.
  destruct (snapshot_pushed_on_change
              [(("USD", "SEK"), (2%float, 500000))] 2000000
              three_quotes_subscriber) as [[_ Hsame] [Hchanged _]].
  - unfold dict_wf. by apply (bool_decide_unpack _).
  - exact three_quotes_wf.
  - split.
    + apply Hsame. reflexivity.
    + apply Hchanged. discriminate.
Defined.

(** The graph of [three_quotes], a snapshot of [datetime]s, read at
    1.8 s, 1.9 s and 2 s: EUR/USD has aged out, USD/SEK and USD/JPY give
    two edges each. *)
Example build_graph_edges_datetimes :
  build_graph EdgeList.add_edge log10_of_power
    (fun i => 1800000 + 100000 * Z.of_nat i) 0 three_quotes EdgeList.empty =
  Ok [("USD", "SEK", (- 1)%float);
      ("SEK", "USD", 1%float);
      ("USD", "JPY", (- 2)%float);
      ("JPY", "USD", 2%float)].
Proof.
  rewrite (build_graph_edges EdgeList.add_edge log10_of_power
             (fun i => 1800000 + 100000 * Z.of_nat i) 0 three_quotes
             EdgeList.empty).
  - reflexivity.
  - repeat constructor.
Qed.

(** C5 on [cycle_predecessors]: from the negative edge (D, X) the walk
    X, D, A, C, B, A closes at A, and X, D are discarded. *)
Lemma find_negative_cycle_path_closed_witness :
  find_negative_cycle_path cycle_predecessors (Some ("D", "X")) =
  Ok (Some ["A"; "B"; "C"; "A"]).
Proof.
  apply (find_negative_cycle_path_closed cycle_predecessors "D" "X").
  - discriminate.
  - reflexivity.
Defined.

(** C5, refuted as stated.  For the negative self-loop (A, A) the first
    repeated vertex of the walk A, A, B, A is its second vertex, and the
    closed suffix is A, A.  The reconstruction starts from [v, u] without
    comparing the two, looks for a repetition from [predecessor[u]] on, and
    returns A, B, A, A. *)
Lemma find_negative_cycle_path_self_loop :
  closed_cycle loop_predecessors ("A", "A") = Some ["A"; "A"] /\
  find_negative_cycle_path loop_predecessors (Some ("A", "A")) =
  Ok (Some ["A"; "B"; "A"; "A"]) /\
  find_negative_cycle_path loop_predecessors (Some ("A", "A")) <>
  Ok (closed_cycle loop_predecessors ("A", "A")).
Proof. split; [reflexivity|]. split; [reflexivity | discriminate]. Qed.

(** C7 on a datagram of [eurusd_record] and five more bytes: the datagram
    is dropped, error printed. *)
Lemma receive_updates_partial_record_witness :
  exists e,
    receive_updates_step little 0 (concat [eurusd_record] ++ cut_record)%list
      (@fresh float) =
    mk_Subscriber [] None tt [] [ErrorReceivingUpdates e].
Proof.
  destruct (receive_updates_partial_record little 0 [eurusd_record] cut_record
              (@fresh float)) as [Hshort _].
  - repeat constructor.
  - cbn. lia.
  - apply Hshort. cbn. lia.
Defined.

(** C7, refuted as stated.  With the five bytes at its end, the datagram
    leaves the store empty; without them, it leaves EUR/USD in the store:
    the full record of the datagram was not merged. *)
Lemma receive_updates_drops_full_records :
  length eurusd_record = 32%nat /\ (0 < length cut_record < 32)%nat /\
  quotes_dict
    (receive_updates_step little 0 (concat [eurusd_record] ++ cut_record)%list
       (@fresh float)) = [] /\
  dict_get
    (quotes_dict
       (receive_updates_step little 0 (concat [eurusd_record]) (@fresh float)))
    ("EUR", "USD") =
  Some (binary32_to_float 0x42f6e9d5, true_div 0x37a3658ef2c0 1000000) /\
  ~ skips_partial_record little 0 [eurusd_record] cut_record (@fresh float).
Proof.
  split; [reflexivity|]. split; [cbn; lia|]. split; [reflexivity|].
  split; [reflexivity|]. unfold skips_partial_record. intros Heq.
  apply (f_equal length) in Heq. vm_compute in Heq. discriminate.
Qed.

(** C3, the code as it is.  The store that the ingestion of
    [eurusd_datagram] leaves holds EUR/USD with the float timestamp of the
    codec.  Two seconds after the quote was observed it is older than 1.5
    seconds, and eviction does not remove it: the subtraction of a float
    from a [datetime] raises [TypeError], which the ingestion loop prints,
    and the store is as before. *)
Theorem eviction_raises_on_ingested_quote :
  let self :=
    receive_updates_step little two_seconds_later eurusd_datagram fresh_edges in
  quotes_dict self =
    [(("EUR", "USD"),
      (binary32_to_float 0x42f6e9d5, true_div 0x37a3658ef2c0 1000000))] /\
  stdout self =
    [AddingNewQuotes ("EUR", "USD"); ErrorReceivingUpdates TypeError] /\
  remove_stale_quotes two_seconds_later self = (Raise TypeError, self).
Proof. split; [reflexivity|]. split; reflexivity. Qed.

(** C8, the code as it is.  One second after the quote of
    [eurusd_datagram] was observed, the graph builder takes the snapshot
    that its ingestion pushed.  The quote is fresh and gives no edge: the
    same subtraction raises [TypeError], the loop prints it, and the active
    graph stays the empty one. *)
Theorem graph_not_built_from_ingested_quote :
  let self :=
    receive_updates_step little one_second_later eurusd_datagram fresh_edges in
  quotes_queue self =
    [[(("EUR", "USD"),
       (binary32_to_float 0x42f6e9d5, true_div 0x37a3658ef2c0 1000000))]] /\
  update_graph_step EdgeList.empty EdgeList.add_edge no_cycle log10_of_power
    (fun _ => one_second_later) self =
  mk_Subscriber (quotes_dict self) None EdgeList.empty []
    (stdout self ++ [ErrorInGraphUpdate TypeError]).
Proof. split; reflexivity. Qed.

(** C1 at work in [identify_arbitrage]: the path A, B, C, A is found and
    reported with a final amount of 800. *)
Example identify_arbitrage_missing_rate :
  identify_arbitrage found_cycle
    (mk_Subscriber ab_store None tt [] []) =
  (Ok PyNone,
   mk_Subscriber ab_store (Some ["A"; "B"; "C"; "A"]) tt []
     [ArbitrageOpportunity;
      Conversion ("A", "B") 2 200;
      CouldNotFindPrice ("B", "C");
      Conversion ("B", "C") 2 400;
      CouldNotFindPrice ("C", "A");
      Conversion ("C", "A") 2 800]).
Proof. reflexivity. Qed.

End instances.

(** * Further properties of the code

    What the functions do beyond the statements of the design document:
    their error cases, what they keep and what they never touch. *)

(** ** Dictionaries: order and deletion *)

Section dict_order.
Context {K V : Type} `{EqDecision K}.
Implicit Types (d : dict K V) (k : K) (v : V).

(** Assignment keeps the position of a key that is there and puts a new
    key last. *)
Lemma keys_set_cases d k v :
  keys (dict_set d k v) = if decide (k ∈ keys d) then keys d else keys d ++ [k].
Proof.
  unfold keys. induction d as [|[k0 v0] d IH]; cbn [dict_set fmap list_fmap].
  - by rewrite decide_False by apply not_elem_of_nil.
  - destruct (decide (k = k0)) as [->|Hne]; cbn [fmap list_fmap fst].
    + by rewrite decide_True by left.
    + change (list_fmap _ _ fst ?l) with (l.*1). rewrite IH.
      destruct (decide (k ∈ d.*1)) as [Hin|Hnin].
      * by rewrite decide_True by by right.
      * rewrite decide_False; [done|]. by intros [?|?]%elem_of_cons.
Qed.

Lemma length_dict_set d k v : (length (dict_set d k v) <= S (length d))%nat.
Proof.
  induction d as [|[k0 v0] d IH]; cbn [dict_set length]; [lia|].
  case_decide; cbn [length]; lia.
Qed.

Lemma filter_ext_in {A} (P Q : A -> Prop) `{!forall x, Decision (P x)}
    `{!forall x, Decision (Q x)} (l : list A) :
  (forall x, x ∈ l -> P x <-> Q x) -> filter P l = filter Q l.
Proof.
  induction l as [|x l IH]; intros Hext; [done|].
  rewrite !filter_cons. rewrite IH by (intros y Hy; apply Hext; by right).
  apply decide_ext. apply Hext. left.
Qed.

Lemma filter_all {A} (P : A -> Prop) `{!forall x, Decision (P x)}
    (l : list A) :
  Forall P l -> filter P l = l.
Proof.
  induction 1 as [|x l Hx _ IH]; [done|].
  by rewrite filter_cons_True, IH.
Qed.

(** Deleting a key of a dictionary leaves the other entries in their
    order. *)
Lemma dict_del_filter d k :
  dict_wf d -> k ∈ keys d ->
  dict_del d k = Ok (filter (fun kv => kv.1 <> k) d).
Proof.
  unfold dict_wf, keys, dict in *.
  induction d as [|[k0 v0] d IH]; cbn [dict_del].
  - by intros _ ?%elem_of_nil.
  - rewrite fmap_cons. intros [Hk0 Hnd]%NoDup_cons Hin. cbn [fst] in *.
    destruct (decide (k = k0)) as [->|Hne].
    + rewrite filter_cons_False by (cbn; tauto).
      rewrite filter_all; [done|]. apply Forall_forall. intros [k v] Hkv.
      cbn. intros ->. apply Hk0. by apply (list_elem_of_fmap_2 fst) in Hkv.
    + apply elem_of_cons in Hin as [?|Hin]; [done|].
      rewrite (IH Hnd Hin). by rewrite filter_cons_True by (cbn; congruence).
Qed.

End dict_order.

(** ** The codec, case by case *)

Section codec_cases.
Import Design.

(** The first [n] chunks of [split_quotes] are the first [32 n] bytes. *)
Lemma concat_slices (b : bytes) (n : nat) :
  concat ((fun i => slice b (i * 32) (i * 32 + 32)) <$> seq 0 n)
  = take (n * 32) b.
Proof.
  induction n as [|n IH]; [done|].
  rewrite seq_S, fmap_app, concat_app, IH. cbn [fmap list_fmap concat Nat.add].
  rewrite (right_id_L [] (++)). unfold slice.
  replace (n * 32 + 32 - n * 32)%nat with 32%nat by lia.
  rewrite take_take_drop. f_equal. lia.
Qed.

Lemma length_slices (b : bytes) (n : nat) :
  (n * 32 <= length b)%nat ->
  Forall (fun c => length c = 32%nat)
    ((fun i => slice b (i * 32) (i * 32 + 32)) <$> seq 0 n).
Proof.
  intros Hn. apply Forall_fmap, Forall_forall. intros i [_ Hi]%elem_of_seq.
  cbn [compose]. rewrite length_slice. lia.
Qed.

(** X1.  [split_quotes] loses no byte and invents none: the chunks, put
    end to end, are the datagram.  No chunk is empty or longer than 32
    bytes, every chunk but the last has 32 bytes, and there are
    [ceil(len / 32)] of them: none for the empty datagram. *)
Theorem split_quotes_partition (b : bytes) :
  concat (split_quotes b) = b /\
  Forall (fun c => (0 < length c <= 32)%nat) (split_quotes b) /\
  (forall (i : nat) (c : bytes),
     split_quotes b !! i = Some c -> (S i < length (split_quotes b))%nat ->
     length c = 32%nat) /\
  length (split_quotes b) = ((length b + 31) / 32)%nat.
Proof.
  unfold split_quotes.
  pose proof (Nat.div_mod_eq (length b) 32) as Hdm.
  pose proof (Nat.mod_upper_bound (length b) 32 ltac:(lia)) as Hmod.
  set (n := (length b / 32)%nat) in *.
  assert (Hn : (n * 32 <= length b)%nat) by lia.
  pose proof (length_slices b n Hn) as Hfull.
  destruct (Nat.eqb_spec (length b mod 32) 0) as [H0|H0].
  - split; [|split; [|split]].
    + rewrite concat_slices. apply take_ge. lia.
    + eapply Forall_impl; [exact Hfull|]. intros c ->. lia.
    + intros i c Hi _. eapply Forall_lookup_1 in Hfull; done.
    + rewrite length_fmap, length_seq.
      apply (Nat.div_unique _ _ _ 31); lia.
  - split; [|split; [|split]].
    + rewrite concat_app, concat_slices. cbn [concat].
      rewrite (right_id_L [] (++)). apply take_drop.
    + apply Forall_app. split.
      * eapply Forall_impl; [exact Hfull|]. intros c ->. lia.
      * apply Forall_singleton. rewrite length_drop. lia.
    + intros i c Hi Hlt.
      rewrite length_app, length_fmap, length_seq in Hlt. cbn [length] in Hlt.
      rewrite lookup_app_l in Hi by (rewrite length_fmap, length_seq; lia).
      eapply Forall_lookup_1 in Hfull; done.
    + rewrite length_app, length_fmap, length_seq. cbn [length].
      apply (Nat.div_unique _ _ _ (length b mod 32 - 1)); lia.
Qed.

(** What [frombytes] puts in a new array: of a non-empty string of whole
    items, the first item is the first [itemsize] bytes. *)
Lemma frombytes_first (t : typecode) (s : bytes) :
  s <> [] -> (length s mod itemsize t = 0)%nat ->
  exists a, frombytes (array_new t) s = Ok a /\
    items a !! 0%nat = Some (take (itemsize t) s).
Proof.
  intros Hne Hmod. unfold frombytes. cbn [array_new tc items app].
  rewrite Hmod. cbn [Nat.eqb]. eexists. split; [done|].
  cbn [items]. by destruct s as [|x s].
Qed.

Lemma frombytes_ragged (t : typecode) (s : bytes) :
  (length s mod itemsize t <> 0)%nat ->
  frombytes (array_new t) s = Raise ValueError.
Proof.
  intros Hmod. unfold frombytes. cbn [array_new tc].
  by destruct (Nat.eqb_spec (length s mod itemsize t) 0).
Qed.

Lemma deserialize_price_ragged (bo : byteorder) (b : bytes) :
  (length b mod 4 <> 0)%nat -> deserialize_price bo b = Raise ValueError.
Proof.
  intros Hmod. unfold deserialize_price.
  by rewrite (frombytes_ragged tc_f b Hmod).
Qed.

Lemma deserialize_utcdatetime_ragged (bo : byteorder) (b : bytes) :
  (length b mod 8 <> 0)%nat -> deserialize_utcdatetime bo b = Raise ValueError.
Proof.
  intros Hmod. unfold deserialize_utcdatetime.
  by rewrite (frombytes_ragged tc_Q b Hmod).
Qed.

(** X2.  [deserialize_price] on any byte string: the empty string is an
    [IndexError] (the array has no item 0), a length that is not a multiple
    of 4 is the [ValueError] of [frombytes], and any other string gives the
    binary32 of its first four bytes in the byte order of the host; the
    bytes after them are read into the array and ignored. *)
Theorem deserialize_price_cases (bo : byteorder) (b : bytes) :
  deserialize_price bo b =
  if decide (b = []) then Raise IndexError
  else if decide (length b mod 4 = 0)%nat
       then Ok (binary32_to_float (wire_uint bo (take 4 b)))
       else Raise ValueError.
Proof.
  case_decide as Hb; [by subst|]. case_decide as Hmod.
  - unfold deserialize_price.
    destruct (frombytes_first tc_f b Hb Hmod) as (a & -> & Ha).
    cbn [mbind result_bind]. unfold getitem_f, bytes in *. rewrite Ha.
    by rewrite native_uint_wire.
  - by apply deserialize_price_ragged.
Qed.

(** X3.  [deserialize_utcdatetime] on any byte string: [IndexError] for
    the empty string, [ValueError] for a length that is not a multiple of
    8, and otherwise the first eight bytes, read as an unsigned integer in
    the byte order opposite to the host's and divided by 1,000,000; the
    bytes after them are ignored.  The result is a float of seconds, not a
    [datetime]. *)
Theorem deserialize_utcdatetime_cases (bo : byteorder) (b : bytes) :
  deserialize_utcdatetime bo b =
  if decide (b = []) then Raise IndexError
  else if decide (length b mod 8 = 0)%nat
       then Ok (true_div (wire_uint (opposite bo) (take 8 b)) 1000000)
       else Raise ValueError.
Proof.
  case_decide as Hb; [by subst|]. case_decide as Hmod.
  - unfold deserialize_utcdatetime.
    destruct (frombytes_first tc_Q b Hb Hmod) as (a & -> & Ha).
    cbn [mbind result_bind]. unfold getitem_Q, byteswap, bytes in *.
    cbn [items]. rewrite list_lookup_fmap, Ha.
    cbn [fmap option_fmap option_map mbind result_bind].
    by rewrite native_uint_reverse.
  - by apply deserialize_utcdatetime_ragged.
Qed.

Lemma decode_ascii_Ok (b : bytes) :
  is_Ok (decode_ascii b) <-> Forall (fun x => byte_val x < 128) b.
Proof.
  unfold decode_ascii. induction b as [|x b IH]; cbn [forallb].
  - split; [constructor | by eexists].
  - rewrite Forall_cons, <- IH. destruct (Z.ltb_spec (byte_val x) 128).
    + cbn [andb]. destruct (forallb _ b).
      * split; [intros _; split; [done | by eexists] | by eexists].
      * split; [by intros [? [=]] | by intros [_ [? [=]]]].
    + cbn [andb]. split; [by intros [? [=]] | lia].
Qed.

Lemma decode_ascii_Raise (b : bytes) (e : exn) :
  decode_ascii b = Raise e -> e = UnicodeDecodeError.
Proof. unfold decode_ascii. destruct (forallb _ b); by intros [=]. Qed.

(** The two currency codes are the first six bytes. *)
Lemma take_6_slices (quote : bytes) :
  take 6 quote = slice quote 0 3 ++ slice quote 3 6.
Proof.
  unfold slice. rewrite drop_0. cbn [Nat.sub]. by rewrite take_take_drop.
Qed.

(** The chunks that decode are those of 18 bytes or more whose first six
    bytes are ASCII. *)
Lemma parse_quote_is_Ok (bo : byteorder) (quote : bytes) :
  is_Ok (parse_quote bo quote) <->
  (18 <= length quote)%nat /\ Forall (fun x => byte_val x < 128) (take 6 quote).
Proof.
  rewrite take_6_slices, Forall_app, <- !decode_ascii_Ok. split.
  - intros Hok. split.
    + destruct (decide (length quote < 18)%nat) as [Hshort|]; [|lia].
      destruct (parse_quote_short bo quote Hshort) as [e He].
      destruct Hok as [r Hr]. congruence.
    + destruct Hok as [r Hr]. unfold parse_quote in Hr.
      destruct (decode_ascii (slice quote 0 3)) as [base|]; [|discriminate].
      destruct (decode_ascii (slice quote 3 6)) as [counter|];
        [|discriminate].
      split; by eexists.
  - intros (Hlen & [base Hb] & [counter Hc]). unfold parse_quote.
    rewrite Hb, Hc. cbn [mbind result_bind].
    rewrite deserialize_price_item, deserialize_utcdatetime_item
      by (rewrite length_slice; lia).
    by eexists.
Qed.

Lemma length_string_of_list_byte (b : bytes) :
  String.length (string_of_list_byte b) = length b.
Proof.
  unfold string_of_list_byte. induction b as [|x b IH]; [done|].
  cbn [List.map string_of_list_ascii String.length length]. by rewrite IH.
Qed.

(** X4.  A chunk decodes exactly when it has 18 bytes or more and its
    first six bytes are ASCII: no price and no timestamp is refused,
    whatever its bits, a price of zero, a negative one and a NaN included.
    The two codes of a decoded quote are bytes 0-2 and 3-5 as they are,
    always of three characters, with no check that they are letters. *)
Theorem parse_quote_accepts (bo : byteorder) (quote : bytes) :
  (is_Ok (parse_quote bo quote) <->
   (18 <= length quote)%nat /\
   Forall (fun x => byte_val x < 128) (take 6 quote)) /\
  forall (base counter : string) (entry : float * float),
    parse_quote bo quote = Ok ((base, counter), entry) ->
    base = string_of_list_byte (take 3 quote) /\
    counter = string_of_list_byte (take 3 (drop 3 quote)) /\
    String.length base = 3%nat /\ String.length counter = 3%nat.
Proof.
  split; [apply parse_quote_is_Ok|]. intros base counter entry Hq.
  assert (Hlen : (18 <= length quote)%nat).
  { apply (parse_quote_is_Ok bo quote). by eexists. }
  unfold parse_quote, decode_ascii, slice in Hq. rewrite drop_0 in Hq.
  cbn [Nat.sub] in Hq.
  destruct (forallb _ (take 3 quote)); [|discriminate].
  destruct (forallb _ (take 3 (drop 3 quote))); [|discriminate].
  cbn [mbind result_bind] in Hq.
  destruct (deserialize_price bo _) as [price|]; [|discriminate].
  destruct (deserialize_utcdatetime bo _) as [ts|]; [|discriminate].
  cbn [mbind result_bind] in Hq. injection Hq as <- <- _.
  rewrite !length_string_of_list_byte, !length_take, length_drop.
  repeat split; lia.
Qed.

(** X5.  The exception of a chunk that is too short.  The codes are
    decoded first, so a byte above 127 among the first six is a
    [UnicodeDecodeError] whatever the length.  Otherwise a chunk of at most
    6 bytes, or of exactly 10, leaves an empty slice for the price or the
    timestamp, and reading item 0 of the empty array is an [IndexError];
    any other length below 18 leaves a slice that is not a whole item, a
    [ValueError]. *)
Theorem parse_quote_short_error (bo : byteorder) (quote : bytes) :
  (length quote < 18)%nat ->
  parse_quote bo quote =
  Raise (if decide (Forall (fun x => byte_val x < 128) (take 6 quote))
         then if decide (length quote <= 6 \/ length quote = 10)%nat
              then IndexError else ValueError
         else UnicodeDecodeError).
Proof.
  intros Hlen. unfold parse_quote. case_decide as Hascii.
  - rewrite take_6_slices, Forall_app, <- !decode_ascii_Ok in Hascii.
    destruct Hascii as [[base ->] [counter ->]]. cbn [mbind result_bind].
    destruct (decide (length quote <= 6)%nat) as [H6|H6].
    { rewrite decide_True by (by left).
      assert (Hnil : slice quote 6 10 = []).
      { apply nil_length_inv. rewrite length_slice. lia. }
      by rewrite Hnil. }
    destruct (decide (length quote < 10)%nat) as [H10|H10].
    { rewrite decide_False by lia. rewrite deserialize_price_ragged; [done|].
      rewrite length_slice.
      replace ((10 - 6) `min` (length quote - 6))%nat
        with (length quote - 6)%nat by lia.
      rewrite Nat.mod_small; lia. }
    rewrite deserialize_price_item by (rewrite length_slice; lia).
    cbn [mbind result_bind].
    destruct (decide (length quote = 10)%nat) as [Heq|Hne].
    { rewrite decide_True by (by right).
      assert (Hnil : slice quote 10 18 = []).
      { apply nil_length_inv. rewrite length_slice. lia. }
      by rewrite Hnil. }
    rewrite decide_False by lia.
    rewrite deserialize_utcdatetime_ragged; [done|].
    rewrite length_slice.
    replace ((18 - 10) `min` (length quote - 10))%nat
      with (length quote - 10)%nat by lia.
    rewrite Nat.mod_small; lia.
  - rewrite take_6_slices, Forall_app, <- !decode_ascii_Ok in Hascii.
    destruct (decode_ascii (slice quote 0 3)) as [base|e] eqn:Hbase.
    + destruct (decode_ascii (slice quote 3 6)) as [counter|e] eqn:Hcounter.
      * exfalso. apply Hascii. split; by eexists.
      * cbn [mbind result_bind]. by rewrite (decode_ascii_Raise _ _ Hcounter).
    + cbn [mbind result_bind]. by rewrite (decode_ascii_Raise _ _ Hbase).
Qed.

(** X6.  [parse_quotes] raises exactly when some chunk does not decode,
    and its exception is that of the first such chunk: the chunks before it
    have decoded and are lost with it, the chunks after it are not looked
    at. *)
Theorem parse_quotes_first_failure (bo : byteorder) (l : list bytes)
    (e : exn) :
  parse_quotes bo l = Raise e <->
  exists (l1 : list bytes) (c : bytes) (l2 : list bytes),
    l = l1 ++ c :: l2 /\
    Forall (fun c' => is_Ok (parse_quote bo c')) l1 /\
    parse_quote bo c = Raise e.
Proof.
  unfold parse_quotes. generalize (@nil (iso_pair * (float * float))).
  induction l as [|c l IH]; intros d; cbn [parse_quotes_loop].
  - split; [discriminate|]. intros (l1 & c & l2 & Hl & _).
    by destruct l1.
  - destruct (parse_quote bo c) as [[iso entry]|e'] eqn:Hc.
    + rewrite IH. split.
      * intros (l1 & c' & l2 & -> & Hl1 & Hc').
        exists (c :: l1), c', l2. split; [done|]. split; [|done].
        constructor; [by eexists | done].
      * intros (l1 & c' & l2 & Hl & Hl1 & Hc').
        destruct l1 as [|c0 l1]; cbn [app] in Hl; injection Hl as -> ->.
        { congruence. }
        apply Forall_cons in Hl1 as [_ Hl1]. by exists l1, c', l2.
    + split.
      * intros [= ->]. exists [], c, l. split; [done|]. by split.
      * intros (l1 & c' & l2 & Hl & Hl1 & Hc').
        destruct l1 as [|c0 l1]; cbn [app] in Hl; injection Hl as -> ->.
        { congruence. }
        apply Forall_cons in Hl1 as [[r Hr] _]. congruence.
Qed.

Lemma parse_quotes_loop_keys (bo : byteorder) (l : list bytes) :
  forall d d', parse_quotes_loop bo l d = Ok d' ->
  (forall iso, iso ∈ keys d' <->
     iso ∈ keys d \/
     exists c entry, c ∈ l /\ parse_quote bo c = Ok (iso, entry)) /\
  (length d' <= length d + length l)%nat.
Proof.
  induction l as [|c l IH]; intros d d'; cbn [parse_quotes_loop].
  - intros [= <-]. split; [|lia]. intros iso. split; [by left|].
    intros [?|(c & entry & ?%elem_of_nil & _)]; done.
  - destruct (parse_quote bo c) as [[iso0 entry0]|e] eqn:Hc; [|discriminate].
    intros [Hkeys Hlen]%IH. split.
    + intros iso. rewrite Hkeys, keys_set. split.
      * intros [[->|?]|(c' & entry & Hin & Hc')].
        -- right. exists c, entry0. split; [left | done].
        -- by left.
        -- right. exists c', entry. split; [by right | done].
      * intros [?|(c' & entry & [->|Hin]%elem_of_cons & Hc')].
        -- left. by right.
        -- left. left. congruence.
        -- right. by exists c', entry.
    + pose proof (length_dict_set d iso0 entry0). cbn [length]. lia.
Qed.

(** X7.  The dictionary that [parse_quotes] returns has each pair once,
    its pairs are exactly those that some chunk decodes to, and it has at
    most one entry per chunk. *)
Theorem parse_quotes_keys (bo : byteorder) (l : list bytes)
    (d : dict iso_pair (float * float)) :
  parse_quotes bo l = Ok d ->
  dict_wf d /\
  (forall iso, iso ∈ keys d <->
     exists c entry, c ∈ l /\ parse_quote bo c = Ok (iso, entry)) /\
  (length d <= length l)%nat.
Proof.
  intros Hd. split; [by eapply parse_quotes_wf|].
  destruct (parse_quotes_loop_keys bo l [] d Hd) as [Hkeys Hlen].
  split; [|done]. intros iso. rewrite Hkeys. split; [|by right].
  by intros [?%elem_of_nil|?].
Qed.

Lemma parse_quotes_loop_is_Ok (bo : byteorder) (l : list bytes) :
  forall d, is_Ok (parse_quotes_loop bo l d) <->
            Forall (fun c => is_Ok (parse_quote bo c)) l.
Proof.
  induction l as [|c l IH]; intros d; cbn [parse_quotes_loop].
  - split; [constructor | by eexists].
  - rewrite Forall_cons. destruct (parse_quote bo c) as [[iso entry]|e].
    + rewrite IH. split; [intros ?; split; [by eexists | done]|].
      by intros [_ ?].
    + split; [by intros [? [=]] | by intros [[? [=]] _]].
Qed.

Lemma split_quotes_last (data : bytes) :
  (length data mod 32 <> 0)%nat ->
  exists full : list bytes,
    split_quotes data =
      (full ++ [drop (length data / 32 * 32)%nat data])%list /\
    Forall (fun c => length c = 32%nat) full.
Proof.
  intros Hmod. unfold split_quotes.
  destruct (Nat.eqb_spec (length data mod 32) 0) as [|_]; [done|].
  eexists. split; [done|]. apply length_slices.
  pose proof (Nat.div_mod_eq (length data) 32). lia.
Qed.

(** X8.  The datagrams that the decoder takes: those whose length leaves
    no remainder by 32, or one of 18 bytes or more, and whose every chunk
    starts with six ASCII bytes.  Any other datagram raises, full records
    and all. *)
Theorem parse_quotes_datagram (bo : byteorder) (data : bytes) :
  is_Ok (parse_quotes bo (split_quotes data)) <->
  ((length data mod 32 = 0)%nat \/ (18 <= length data mod 32)%nat) /\
  Forall (fun c => Forall (fun x => byte_val x < 128) (take 6 c))
    (split_quotes data).
Proof.
  unfold parse_quotes. rewrite parse_quotes_loop_is_Ok.
  pose proof (Nat.div_mod_eq (length data) 32) as Hdm.
  pose proof (Nat.mod_upper_bound (length data) 32 ltac:(lia)) as Hub.
  assert (Hlen : Forall (fun c => (18 <= length c)%nat) (split_quotes data) <->
    (length data mod 32 = 0)%nat \/ (18 <= length data mod 32)%nat).
  { destruct (decide (length data mod 32 = 0)%nat) as [H0|H0].
    - split; [by left|]. intros _. unfold split_quotes. rewrite H0.
      cbn [Nat.eqb]. eapply Forall_impl; [apply length_slices; lia|].
      intros c ->. lia.
    - destruct (split_quotes_last data H0) as (full & -> & Hfull).
      rewrite Forall_app, Forall_singleton, length_drop.
      split.
      + intros [_ Hlast]. right. lia.
      + intros [?|Hlast]; [done|]. split; [|lia].
        eapply Forall_impl; [exact Hfull|]. intros c ->. lia. }
  rewrite <- Hlen, <- Forall_and. apply Forall_iff. intros c.
  apply parse_quote_is_Ok.
Qed.

End codec_cases.

(** ** The subscription request *)

Section address_facts.
Import Design Address.

Lemma byte_val_byte_of_Z (z : Z) : byte_val (byte_of_Z z) = z mod 256.
Proof.
  unfold byte_of_Z, byte_val.
  pose proof (Z.mod_pos_bound z 256 ltac:(lia)) as Hz.
  destruct (Byte.of_N (Z.to_N (z mod 256))) as [b|] eqn:Hb.
  - apply Byte.to_of_N in Hb. rewrite Hb. lia.
  - apply Byte.of_N_None_iff in Hb. lia.
Qed.

Lemma le_uint_le_bytes (n : nat) :
  forall z, 0 <= z < 256 ^ Z.of_nat n -> le_uint (le_bytes n z) = z.
Proof.
  induction n as [|n IH]; intros z Hz.
  - cbn in *. lia.
  - cbn [le_bytes le_uint]. rewrite byte_val_byte_of_Z.
    rewrite Nat2Z.inj_succ, Z.pow_succ_r in Hz by lia.
    rewrite IH.
    + pose proof (Z.div_mod z 256 ltac:(lia)). lia.
    + split; [apply Z.div_pos; lia|]. apply Z.div_lt_upper_bound; lia.
Qed.

Lemma length_le_bytes (n : nat) (z : Z) : length (le_bytes n z) = n.
Proof.
  revert z. induction n as [|n IH]; intros z; cbn [le_bytes length]; [done|].
  by rewrite IH.
Qed.

(** X9.  For an address that [ipaddress] takes and a port from 0 to 65535,
    [serialize_address] returns the packed address followed by two bytes
    that hold the port in the byte order opposite to the host's: the
    big-endian order of the docstring on a little-endian host, and the
    little-endian order on a big-endian one.  The request has two bytes
    more than the packed address: 6 for IPv4, 18 for IPv6. *)
Theorem serialize_address_layout (packed : string -> option bytes)
    (bo : byteorder) (ip : string) (port : Z) (ip_bytes : bytes) :
  packed ip = Some ip_bytes -> 0 <= port <= 65535 ->
  exists port_bytes : bytes,
    serialize_address packed bo (ip, port) = inr (ip_bytes ++ port_bytes) /\
    length port_bytes = 2%nat /\
    wire_uint (opposite bo) port_bytes = port.
Proof.
  intros Hip Hport. unfold serialize_address. rewrite Hip.
  rewrite decide_True by done. eexists. split; [done|].
  cbn [fmap list_fmap concat]. rewrite (right_id_L [] (++)).
  split.
  - rewrite length_reverse. destruct bo; cbn [native_bytes];
      by rewrite ?length_reverse, length_le_bytes.
  - destruct bo; cbn [native_bytes opposite wire_uint].
    + rewrite <- le_uint_reverse, reverse_involutive.
      apply le_uint_le_bytes. cbn. lia.
    + rewrite reverse_involutive. apply le_uint_le_bytes. cbn. lia.
Qed.

End address_facts.

(** ** Merging *)

Section merge_facts.
Import Forex.
Context {G T : Type} {TS : Timestamp T}.
Implicit Types (self : Subscriber G T) (d new : quotes T) (iso : iso_pair).

Lemma merge_quote_keys d (updated : bool) (out : list message)
    (item : iso_pair * (float * T)) :
  keys (merge_quote (d, updated, out) item).1.1 =
  if decide (item.1 ∈ keys d) then keys d else keys d ++ [item.1].
Proof.
  destruct item as [iso [price timestamp]]. unfold merge_quote. cbn [fst].
  destruct (dict_get d iso) as [[p0 t0]|] eqn:Hget.
  - assert (iso ∈ keys d) by by eapply dict_get_Some_keys.
    destruct (ts_lt t0 timestamp); cbn [fst]; rewrite ?keys_set_cases;
      by rewrite decide_True.
  - cbn [fst]. rewrite keys_set_cases.
    apply dict_get_None in Hget. by rewrite !decide_False.
Qed.

Lemma merge_fold_keys new :
  forall d (updated : bool) (out : list message),
  let d' := (foldl merge_quote (d, updated, out) new).1.1 in
  keys d `prefix_of` keys d' /\
  forall iso, iso ∈ keys d' <-> iso ∈ keys d \/ iso ∈ keys new.
Proof.
  induction new as [|item new IH]; intros d updated out; cbn [foldl].
  - split; [done|]. intros iso. split; [by left|].
    by intros [?|?%elem_of_nil].
  - destruct (merge_quote (d, updated, out) item) as [[d1 u1] out1] eqn:Hstep.
    pose proof (merge_quote_keys d updated out item) as Hk.
    rewrite Hstep in Hk. cbn [fst] in Hk.
    destruct (IH d1 u1 out1) as [Hpre Hin]. split.
    + etrans; [|exact Hpre]. rewrite Hk. case_decide; [done|].
      by apply prefix_app_r.
    + intros iso. rewrite Hin, Hk.
      change (keys (item :: new)) with (item.1 :: keys new).
      rewrite elem_of_cons. case_decide as Hd.
      * split; [tauto|]. intros [?|[->|?]]; tauto.
      * rewrite elem_of_app, list_elem_of_singleton. tauto.
Qed.

(** X10.  A merge never removes a pair and never moves one: the pairs of
    the store before the call are, in their order, the first pairs of the
    store after it, and the store then holds its old pairs and those of the
    batch, outdated quotes included, and no other. *)
Theorem update_quotes_dict_keys new self :
  let self' := (update_quotes_dict new self).2 in
  keys (quotes_dict self) `prefix_of` keys (quotes_dict self') /\
  forall iso,
    iso ∈ keys (quotes_dict self') <->
    iso ∈ keys (quotes_dict self) \/ iso ∈ keys new.
Proof.
  unfold update_quotes_dict.
  pose proof (merge_fold_keys new (quotes_dict self) false (stdout self)) as Hk.
  by destruct (foldl merge_quote _ new) as [[d' u'] out'].
Qed.

(** A batch whose every quote is no newer than the stored one changes
    neither the store nor the flag. *)
Lemma merge_fold_outdated new :
  forall d (updated : bool) (out : list message),
  (forall iso price timestamp, (iso, (price, timestamp)) ∈ new ->
     exists p0 t0,
       dict_get d iso = Some (p0, t0) /\ ts_lt t0 timestamp = false) ->
  exists out', foldl merge_quote (d, updated, out) new = (d, updated, out').
Proof.
  induction new as [|[iso [price timestamp]] new IH]; intros d updated out Hold.
  - by exists out.
  - cbn [foldl].
    destruct (Hold iso price timestamp) as (p0 & t0 & Hget & Hlt); [left|].
    unfold merge_quote at 2. rewrite Hget, Hlt. apply IH.
    intros iso' price' timestamp' Hin.
    apply (Hold iso' price' timestamp'). by right.
Qed.

(** X11.  Merging the same batch a second time changes nothing: a
    datagram that arrives twice leaves the store as the first copy left it
    and pushes no second snapshot. *)
Theorem update_quotes_dict_idempotent new self :
  dict_wf new ->
  let self1 := (update_quotes_dict new self).2 in
  let self2 := (update_quotes_dict new self1).2 in
  quotes_dict self2 = quotes_dict self1 /\
  quotes_queue self2 = quotes_queue self1.
Proof.
  intros Hwf self1 self2.
  assert (Hold : forall iso price timestamp,
    (iso, (price, timestamp)) ∈ new ->
    exists p0 t0, dict_get (quotes_dict self1) iso = Some (p0, t0) /\
      ts_lt t0 timestamp = false).
  { intros iso price timestamp Hin. unfold self1.
    rewrite (update_quotes_dict_batch new self iso Hwf).
    rewrite (dict_get_wf_elem_of _ _ _ Hwf Hin).
    destruct (dict_get (quotes_dict self) iso) as [[p0 t0]|].
    - destruct (ts_lt t0 timestamp) eqn:Hlt.
      + eexists _, _. split; [done|]. apply ts_lt_irrefl.
      + by eexists _, _.
    - eexists _, _. split; [done|]. apply ts_lt_irrefl. }
  subst self2. clearbody self1. unfold update_quotes_dict.
  destruct (merge_fold_outdated new (quotes_dict self1) false (stdout self1)
              Hold) as [out' ->].
  done.
Qed.

End merge_facts.

(** ** A store of [datetime]s: merge, eviction and rebuild *)

Section window_facts.
Import Forex Design.
Context {G : Type}.
Implicit Types (self : Subscriber G datetime) (d : quotes datetime).

(** X12.  In a store of [datetime]s no timestamp goes backwards: after a
    merge a pair is still stored, with a timestamp that is not older than
    before, and that is the later of the stored one and the batch's when
    the batch quotes the pair. *)
Theorem update_quotes_dict_monotone (new : quotes datetime) self
    (iso : iso_pair) (p0 : float) (t0 : datetime) :
  dict_wf new ->
  dict_get (quotes_dict self) iso = Some (p0, t0) ->
  exists (p1 : float) (t1 : datetime),
    dict_get (quotes_dict (update_quotes_dict new self).2) iso
      = Some (p1, t1) /\
    t0 <= t1 /\
    forall price timestamp, dict_get new iso = Some (price, timestamp) ->
      t1 = Z.max t0 timestamp.
Proof.
  intros Hwf Hget. rewrite (update_quotes_dict_batch new self iso Hwf), Hget.
  destruct (dict_get new iso) as [[price timestamp]|].
  - cbn [ts_lt datetime_Timestamp]. destruct (Z.ltb_spec t0 timestamp).
    + eexists _, _. split; [done|]. split; [lia|]. intros ?? [= <- <-]. lia.
    + eexists _, _. split; [done|]. split; [lia|]. intros ?? [= <- <-]. lia.
  - eexists _, _. split; [done|]. split; [lia|]. discriminate.
Qed.

(** The scan finds the entries older than the window, in the order of the
    store, and prints one line for each. *)
Lemma stale_scan_filter (now : datetime) d :
  forall (acc : list iso_pair) (out : list message),
  let stale := filter (fun item => older_than_window (now - item.2.2)) d in
  stale_scan now d acc out =
  (Ok (acc ++ stale.*1),
   out ++ ((fun item => RemovingQuote item.1 item.2.1 (now - item.2.2))
             <$> stale)).
Proof.
  unfold quotes, dict in *.
  induction d as [|[iso [price observed]] d IH]; intros acc out.
  - cbn. by rewrite !(right_id_L [] (++)).
  - cbn [stale_scan datetime_sub datetime_Timestamp]. cbn zeta in *.
    destruct (older_than_window (now - observed)) eqn:Hold.
    + rewrite filter_cons_True by (cbn [snd]; rewrite Hold; exact I).
      rewrite IH, !fmap_cons, <- !(assoc_L (++)). done.
    + rewrite filter_cons_False by (cbn [snd]; rewrite Hold; exact id).
      apply IH.
Qed.

Lemma delete_all_filter (st : list iso_pair) :
  forall d, dict_wf d -> NoDup st -> (forall iso, iso ∈ st -> iso ∈ keys d) ->
  delete_all d st = (None, filter (fun kv => kv.1 ∉ st) d).
Proof.
  unfold quotes, dict in *.
  induction st as [|iso0 st IH]; intros d Hwf Hnd Hin; cbn [delete_all].
  - rewrite filter_all; [done|]. apply Forall_forall. intros kv _.
    apply not_elem_of_nil.
  - apply NoDup_cons in Hnd as [Hiso0 Hnd].
    rewrite dict_del_filter by (done || apply Hin; left).
    rewrite IH.
    + unfold dict. rewrite list_filter_filter. f_equal. apply list_filter_iff.
      intros kv. rewrite not_elem_of_cons. tauto.
    + unfold dict_wf, keys. eapply sublist_NoDup; [exact Hwf|].
      apply fmap_sublist, sublist_filter.
    + done.
    + intros iso Hiso.
      assert (Hd : iso ∈ keys d) by (apply Hin; by right).
      apply list_elem_of_fmap in Hd as ([k v] & -> & Hkv).
      apply (list_elem_of_fmap_2 fst (filter _ d) (k, v)).
      apply list_elem_of_filter. split; [|done]. cbn. by intros ->.
Qed.

(** The whole effect of an eviction on a store of [datetime]s. *)
Lemma remove_stale_quotes_datetime (now : datetime) self :
  dict_wf (quotes_dict self) ->
  let stale :=
    filter (fun item => older_than_window (now - item.2.2))
      (quotes_dict self) in
  let kept :=
    filter (fun item => ¬ older_than_window (now - item.2.2))
      (quotes_dict self) in
  remove_stale_quotes now self =
  (Ok PyNone,
   mk_Subscriber kept (current_path self) (quotes_graph self)
     (match stale with
      | [] => quotes_queue self
      | _ :: _ => quotes_queue self ++ [kept]
      end)
     (stdout self ++
      ((fun item => RemovingQuote item.1 item.2.1 (now - item.2.2))
         <$> stale))).
Proof.
  intros Hwf stale kept. unfold remove_stale_quotes.
  rewrite (stale_scan_filter now (quotes_dict self) [] (stdout self)).
  cbn zeta. fold stale. cbn [app].
  assert (Hsub : stale.*1 `sublist_of` keys (quotes_dict self)).
  { apply fmap_sublist, sublist_filter. }
  rewrite (delete_all_filter (stale.*1) (quotes_dict self) Hwf).
  - assert (Hkept :
      filter (fun kv => kv.1 ∉ stale.*1) (quotes_dict self) = kept).
    { apply filter_ext_in. intros [iso [price observed]] Hin. cbn [fst snd].
      unfold stale. split.
      - intros Hnin Hold. apply Hnin.
        apply (list_elem_of_fmap_2 fst _ (iso, (price, observed))).
        by apply list_elem_of_filter.
      - intros Hfresh ([iso' [price' observed']] & Hiso
                       & [Hold Hin']%list_elem_of_filter)%list_elem_of_fmap.
        cbn [fst snd] in Hiso, Hold. subst iso'.
        apply (dict_get_wf_elem_of _ _ _ Hwf) in Hin, Hin'.
        rewrite Hin in Hin'. by injection Hin' as <- <-. }
    unfold quotes, dict in *. rewrite Hkept.
    by destruct stale as [|item stale'].
  - by eapply sublist_NoDup.
  - intros iso ?. by eapply elem_of_sublist.
Qed.

(** X13.  On a store of [datetime]s an eviction is a filter: it raises
    nothing, the entries that are not older than 1.5 s stay, with their
    prices and timestamps and in their order, the others go, and one line
    is printed for each entry that went, in the order of the store. *)
Theorem remove_stale_quotes_filter (now : datetime) self :
  dict_wf (quotes_dict self) ->
  exists self',
    remove_stale_quotes now self = (Ok PyNone, self') /\
    quotes_dict self' =
      filter (fun item => ¬ older_than_window (now - item.2.2))
        (quotes_dict self) /\
    stdout self' =
      stdout self ++
      ((fun item => RemovingQuote item.1 item.2.1 (now - item.2.2))
         <$> filter (fun item => older_than_window (now - item.2.2))
               (quotes_dict self)).
Proof.
  intros Hwf. eexists. split; [by apply remove_stale_quotes_datetime|].
  by split.
Qed.

Lemma stale_scan_fresh (now : datetime) d :
  Forall (fun item => ¬ older_than_window (now - item.2.2)) d ->
  forall (acc : list iso_pair) (out : list message),
  stale_scan now d acc out = (Ok acc, out).
Proof.
  induction 1 as [|[iso [price observed]] d Hfresh _ IH]; intros acc out;
    [done|].
  cbn [stale_scan datetime_sub datetime_Timestamp]. cbn [snd] in Hfresh.
  destruct (older_than_window (now - observed)); [done | apply IH].
Qed.

(** X14.  A second eviction at the same instant does nothing: it
    returns [None], removes no entry, prints no line and pushes no
    snapshot. *)
Theorem remove_stale_quotes_idempotent (now : datetime) self :
  dict_wf (quotes_dict self) ->
  let self' := (remove_stale_quotes now self).2 in
  remove_stale_quotes now self' = (Ok PyNone, self').
Proof.
  intros Hwf self'. unfold self'.
  rewrite (remove_stale_quotes_datetime now self Hwf). cbn [snd].
  unfold remove_stale_quotes. cbn [quotes_dict stdout].
  rewrite stale_scan_fresh; [done|].
  apply Forall_forall. by intros item [? _]%list_elem_of_filter.
Qed.

(** X15.  A snapshot of [datetime]s whose prices are all positive is
    always published: the turn takes it off the queue and makes the active
    graph the one with the two edges of each quote that is fresh when the
    loop reads the clock for it, whatever the detection that follows does,
    an exception in it included.  The store is not written. *)
Theorem update_graph_step_publishes (new_BellmanFord : G)
    (add_edge : G -> string -> string -> float -> G)
    (shortest_paths :
       G -> string -> float -> dict string float * predecessors * option edge)
    (libm_log10 : float -> float) (utcnow : nat -> datetime)
    self (snapshot : quotes datetime) (rest : list (quotes datetime)) :
  quotes_queue self = snapshot :: rest ->
  Forall (fun item => positive_price item.2.1) snapshot ->
  let self' := update_graph_step new_BellmanFord add_edge shortest_paths
                 libm_log10 utcnow self in
  quotes_graph self' =
    add_edges add_edge new_BellmanFord
      (concat (imap (fun i item => quote_edges libm_log10 (utcnow i) item)
                 snapshot)) /\
  quotes_queue self' = rest /\
  quotes_dict self' = quotes_dict self.
Proof.
  intros Hq Hpos. unfold update_graph_step. rewrite Hq.
  rewrite (build_graph_edges add_edge libm_log10 utcnow 0 snapshot
             new_BellmanFord Hpos).
  cbn [quotes_dict current_path quotes_queue stdout].
  unfold identify_arbitrage. cbn [quotes_graph current_path stdout quotes_dict
    quotes_queue].
  destruct (shortest_paths _ _ _) as [[dist predecessor] neg_edge].
  destruct (find_negative_cycle_path predecessor neg_edge) as [[[|x path]|]|e];
    try done.
  case_decide; [done|].
  by destruct (profit_loop _ _ _ _ _) as [[money|e] out].
Qed.



End window_facts.

(** ** What each thread leaves alone *)

Section frame_facts.
Import Forex.
Context {G T : Type} {TS : Timestamp T}.
Implicit Types (self : Subscriber G T).

Lemma identify_arbitrage_frame
    (shortest_paths :
       G -> string -> float -> dict string float * predecessors * option edge)
    self :
  let self' := (identify_arbitrage shortest_paths self).2 in
  quotes_dict self' = quotes_dict self /\
  quotes_graph self' = quotes_graph self /\
  quotes_queue self' = quotes_queue self.
Proof.
  unfold identify_arbitrage.
  destruct (shortest_paths _ _ _) as [[dist predecessor] neg_edge].
  destruct (find_negative_cycle_path predecessor neg_edge) as [[[|x path]|]|e];
    try done.
  case_decide; [done|].
  by destruct (profit_loop _ _ _ _ _) as [[money|e] out].
Qed.

(** X17.  A turn of the graph builder never writes the store, whatever
    the snapshot, the clock and the graph module do, and takes exactly one
    snapshot off the queue, the oldest, when there is one: also when the
    rebuild or the detection raises. *)
Theorem update_graph_step_frame (new_BellmanFord : G)
    (add_edge : G -> string -> string -> float -> G)
    (shortest_paths :
       G -> string -> float -> dict string float * predecessors * option edge)
    (libm_log10 : float -> float) (utcnow : nat -> datetime) self :
  let self' := update_graph_step new_BellmanFord add_edge shortest_paths
                 libm_log10 utcnow self in
  quotes_dict self' = quotes_dict self /\
  quotes_queue self' = tail (quotes_queue self).
Proof.
  unfold update_graph_step.
  destruct (quotes_queue self) as [|snapshot rest] eqn:Hq.
  - by rewrite Hq.
  - destruct (build_graph _ _ _ _ _ _) as [g|e]; [|done].
    match goal with
    | |- context [identify_arbitrage _ ?s] =>
        pose proof (identify_arbitrage_frame shortest_paths s)
          as (Hd & _ & Hqq);
        destruct (identify_arbitrage shortest_paths s) as [[r|e] s']
    end; cbn [snd quotes_dict quotes_queue] in *; by rewrite Hd, Hqq.
Qed.

End frame_facts.

(** ** The store of the running program *)

Section program_facts.
Import Forex.
Context {G : Type}.
Implicit Types (self : Subscriber G float).

(** With the floats of the codec in the store, an eviction changes
    neither the store nor the queue: it has nothing to do on the empty
    store and raises at the first entry of any other. *)
Lemma remove_stale_quotes_float_dict (now : datetime) self :
  quotes_dict (remove_stale_quotes now self).2 = quotes_dict self /\
  quotes_queue (remove_stale_quotes now self).2 = quotes_queue self /\
  quotes_graph (remove_stale_quotes now self).2 = quotes_graph self /\
  current_path (remove_stale_quotes now self).2 = current_path self.
Proof.
  destruct (decide (quotes_dict self = [])) as [Hd|Hd].
  - unfold remove_stale_quotes. rewrite Hd. done.
  - by rewrite remove_stale_quotes_float_store.
Qed.

(** X18.  The running program never removes a pair from its store: after
    the ingestion of any datagram, at any time, the pairs that were stored
    are still stored, in their order, before the pairs that came new.
    The eviction of [receive_updates] has no effect on the stores that the
    codec fills. *)
Theorem receive_updates_step_keeps_pairs (bo : byteorder) (now : datetime)
    (data : bytes) self :
  keys (quotes_dict self)
    `prefix_of` keys (quotes_dict (receive_updates_step bo now data self)).
Proof.
  unfold receive_updates_step.
  destruct (parse_quotes bo (split_quotes data)) as [new|e]; [|done].
  pose proof (merge_fold_keys new (quotes_dict self) false (stdout self))
    as [Hpre _].
  unfold update_quotes_dict.
  destruct (foldl merge_quote _ new) as [[d updated] out]. cbn [fst] in Hpre.
  match goal with
  | |- context [remove_stale_quotes now ?s] =>
      pose proof (remove_stale_quotes_float_dict now s) as [Hd _];
      destruct (remove_stale_quotes now s) as [[r|e] s']
  end; cbn [snd quotes_dict] in *; by rewrite Hd.
Qed.

(** X19.  The ingestion of a datagram never writes the active graph or
    the last reported path, and never takes a snapshot off the queue: what
    was queued is still queued, in its order, before what the datagram
    added. *)
Theorem receive_updates_step_frame (bo : byteorder) (now : datetime)
    (data : bytes) self :
  let self' := receive_updates_step bo now data self in
  quotes_graph self' = quotes_graph self /\
  current_path self' = current_path self /\
  quotes_queue self `prefix_of` quotes_queue self'.
Proof.
  unfold receive_updates_step.
  destruct (parse_quotes bo (split_quotes data)) as [new|e]; [|done].
  unfold update_quotes_dict.
  destruct (foldl merge_quote _ new) as [[d updated] out].
  match goal with
  | |- context [remove_stale_quotes now ?s] =>
      pose proof (remove_stale_quotes_float_dict now s)
        as (_ & Hq & Hg & Hp);
      destruct (remove_stale_quotes now s) as [[r|e] s']
  end; cbn [snd quotes_graph current_path quotes_queue] in *;
    rewrite Hq, Hg, Hp; (split; [done|]); (split; [done|]);
    destruct updated; first [done | by apply prefix_app_r].
Qed.

End program_facts.

(** ** The reconstruction, whatever the predecessors *)

Section reconstruction_facts.
Import Forex Design.
Implicit Types (predecessor : predecessors) (w cycle : list string).

(** The loop raises nothing but the [KeyError] of [predecessor[current]]. *)
Lemma walk_back_Raise predecessor cycle (current : string) (e : exn) :
  walk_back predecessor cycle current = Raise e -> e = KeyError.
Proof.
  funelim (walk_back predecessor cycle current); intros Hrun.
  - discriminate.
  - eauto.
  - by injection Hrun as <-.
Qed.

(** A walk over predecessors that are keys again, or the head [v] of the
    negative edge, does not leave the map. *)
Lemma walk_back_closed predecessor (v : string) cycle (current : string) :
  (forall k y, dict_get predecessor k = Some y ->
     y = v \/ y ∈ keys predecessor) ->
  v ∈ cycle -> current = v \/ current ∈ keys predecessor ->
  is_Ok (walk_back predecessor cycle current).
Proof.
  intros Hclosed. funelim (walk_back predecessor cycle current);
    intros Hv Hcur.
  - by eexists.
  - match goal with IH : forall _ : string, _ |- _ => apply (IH v) end;
      [done | apply elem_of_app; by left | by eapply Hclosed].
  - exfalso. destruct Hcur as [->|Hkey]; [done|].
    match goal with
    | Hnone : dict_get _ _ = None |- _ =>
        by apply (proj1 (dict_get_None _ _) Hnone)
    end.
Qed.

(** After the loop, [cycle.index(current)] finds [current] and the slice
    from there on is not empty: neither raises. *)
Lemma walk_back_index predecessor cycle (current : string) cycle'
    (x : string) :
  walk_back predecessor cycle current = Ok (cycle', x) ->
  exists (s : nat) (tl : list string),
    index cycle' x = Ok s /\ cycle' !! s = Some x /\
    drop s cycle' = x :: tl.
Proof.
  intros (ext & -> & Hx & _)%walk_back_Ok. unfold index.
  destruct (list_find (fun y => y = x) (cycle ++ ext)) as [[s x']|] eqn:Hfind.
  - apply list_find_Some in Hfind as (Hs & -> & _).
    exists s, (drop (S s) (cycle ++ ext)). split; [done|]. split; [done|].
    by apply drop_S.
  - apply list_find_None in Hfind.
    rewrite Forall_forall in Hfind. by destruct (Hfind x Hx).
Qed.

(** What a normal return of the reconstruction is made of: the loop has
    ended at [x], which is at position [s] of the list that it built, and
    the path is that list from [s] on, closed with [x] and reversed. *)
Lemma find_negative_cycle_path_inv predecessor (u v : string)
    (r : option (list string)) :
  find_negative_cycle_path predecessor (Some (u, v)) = Ok r ->
  exists (c : string) (ext : list string) (x : string) (s : nat),
    dict_get predecessor u = Some c /\
    walk_back predecessor [v; u] c = Ok ([v; u] ++ ext, x) /\
    ([v; u] ++ ext) !! s = Some x /\
    r = Some (reverse (drop s ([v; u] ++ ext) ++ [x])).
Proof.
  unfold find_negative_cycle_path.
  destruct (dict_get predecessor u) as [c|] eqn:Hu; [|discriminate].
  destruct (walk_back predecessor [v; u] c) as [[cycle x]|e] eqn:Hrun;
    [|discriminate].
  cbn [mbind result_bind].
  destruct (walk_back_index _ _ _ _ _ Hrun) as (s & tl & -> & Hs & Hdrop).
  cbn [mbind result_bind]. rewrite Hdrop. intros [= <-].
  pose proof Hrun as (ext & -> & _)%walk_back_Ok.
  exists c, ext, x, s. split; [done|]. split; [done|]. split; [done|].
  by rewrite Hdrop.
Qed.

Lemma find_negative_cycle_path_Raise predecessor (neg_edge : option edge)
    (e : exn) :
  find_negative_cycle_path predecessor neg_edge = Raise e -> e = KeyError.
Proof.
  unfold find_negative_cycle_path. destruct neg_edge as [[u v]|]; [|done].
  destruct (dict_get predecessor u) as [c|]; [|by intros [= <-]].
  destruct (walk_back predecessor [v; u] c) as [[cycle x]|e'] eqn:Hrun.
  - cbn [mbind result_bind].
    destruct (walk_back_index _ _ _ _ _ Hrun) as (s & tl & -> & _ & Hdrop).
    cbn [mbind result_bind]. by rewrite Hdrop.
  - cbn [mbind result_bind]. intros [= <-]. by eapply walk_back_Raise.
Qed.

(** X20.  The outcomes of [find_negative_cycle_path], for any
    predecessors and any edge.  The only exception is the [KeyError] of a
    vertex without predecessor: [cycle.index] and [cycle[0]] never raise.
    [None] is returned for no edge and for nothing else.  A path that is
    returned starts and ends with the same vertex, so it has two vertices
    at least, and the vertices between are the head of the edge or keys of
    the predecessors. *)
Theorem find_negative_cycle_path_outcomes predecessor
    (neg_edge : option edge) :
  (forall e : exn,
     find_negative_cycle_path predecessor neg_edge = Raise e ->
     e = KeyError) /\
  (find_negative_cycle_path predecessor neg_edge = Ok None <->
   neg_edge = None) /\
  (forall path : list string,
     find_negative_cycle_path predecessor neg_edge = Ok (Some path) ->
     exists (x : string) (middle : list string),
       path = x :: middle ++ [x] /\
       forall y, y ∈ middle ->
         Some y = snd <$> neg_edge \/ y ∈ keys predecessor).
Proof.
  split; [|split].
  - intros e. apply find_negative_cycle_path_Raise.
  - split; [|by intros ->]. destruct neg_edge as [[u v]|]; [|done].
    by intros (c & ext & x & s & _ & _ & _ & [=])
      %find_negative_cycle_path_inv.
  - intros path. destruct neg_edge as [[u v]|]; [|done].
    intros (c & ext & x & s & Hu & Hrun & Hs & [= ->])
      %find_negative_cycle_path_inv.
    change (v :: u :: ext) with ([v; u] ++ ext).
    rewrite (drop_S _ _ _ Hs), reverse_snoc, reverse_cons.
    exists x, (reverse (drop (S s) ([v; u] ++ ext))). split; [done|].
    intros y Hy. rewrite elem_of_reverse in Hy.
    assert (Hin : y ∈ [v; u] ++ ext).
    { eapply elem_of_sublist; [exact Hy | apply sublist_drop]. }
    apply walk_back_Ok in Hrun as (ext' & Heq & _ & _ & Hext & _).
    apply app_inv_head in Heq as <-.
    apply elem_of_app in Hin as [Hin|Hin].
    + apply elem_of_cons in Hin as [->|Hin]; [by left|].
      apply list_elem_of_singleton in Hin as ->. right.
      by eapply dict_get_Some_keys.
    + right. by destruct (Hext _ Hin).
Qed.

(** X21.  The reconstruction returns a path, and raises nothing, when the
    tail of the edge has a predecessor and every predecessor in the map is
    a key of the map again or the head of the edge: the walk then cannot
    leave the map, and it ends because it has no vertex twice. *)
Theorem find_negative_cycle_path_returns predecessor (u v : string) :
  u ∈ keys predecessor ->
  (forall k y, dict_get predecessor k = Some y ->
     y = v \/ y ∈ keys predecessor) ->
  exists path : list string,
    find_negative_cycle_path predecessor (Some (u, v)) = Ok (Some path).
Proof.
  intros Hu Hclosed. unfold find_negative_cycle_path.
  destruct (dict_get predecessor u) as [c|] eqn:Hc.
  2: { by apply dict_get_None in Hc. }
  destruct (walk_back_closed predecessor v [v; u] c Hclosed) as [[cy x] Hw].
  { left. } { by eapply Hclosed. }
  rewrite Hw. cbn [mbind result_bind].
  destruct (walk_back_index _ _ _ _ _ Hw) as (s & tl & -> & _ & Hdrop).
  cbn [mbind result_bind]. rewrite Hdrop. by eexists.
Qed.

(** Consecutive vertices of the list that the loop builds. *)
Lemma walk_back_links predecessor (u v c : string) (ext : list string)
    (x : string) :
  dict_get predecessor u = Some c ->
  walk_back predecessor [v; u] c = Ok ([v; u] ++ ext, x) ->
  forall (j : nat) (a b : string),
    (([v; u] ++ ext) ++ [x]) !! j = Some a ->
    (([v; u] ++ ext) ++ [x]) !! S j = Some b ->
    (a, b) = (v, u) \/ dict_get predecessor a = Some b.
Proof.
  intros Hu Hrun j a b Ha Hb.
  apply walk_back_Ok in Hrun as (ext' & Heq & _ & _ & _ & Hwalk).
  apply app_inv_head in Heq as <-.
  specialize (Hwalk (length ext) ltac:(lia)).
  assert (Hw : ([v; u] ++ ext) ++ [x] =
    v :: take (S (S (length ext)))
           (predecessor_walk predecessor (S (length ext)) u)).
  { cbn [predecessor_walk]. rewrite Hu.
    change (take (S (S ?n)) (u :: ?l)) with (u :: take (S n) l).
    rewrite Hwalk. by rewrite <- (assoc_L (++)). }
  rewrite Hw in Ha, Hb. destruct j as [|j].
  - left. cbn in Ha, Hb. congruence.
  - right. cbn [lookup list_lookup] in Ha, Hb.
    apply lookup_take_Some in Ha as [Ha _], Hb as [Hb _].
    by eapply predecessor_walk_step.
Qed.

(** X22.  Every leg of a reconstructed path is an edge that Bellman-Ford
    has recorded: a leg [(a, b)] is the negative edge [(u, v)] itself, or
    [a] is the predecessor of [b].  The path invents no conversion. *)
Theorem find_negative_cycle_path_legs predecessor (u v : string)
    (path : list string) :
  find_negative_cycle_path predecessor (Some (u, v)) = Ok (Some path) ->
  forall a b : string, (a, b) ∈ legs path ->
    (a, b) = (u, v) \/ dict_get predecessor b = Some a.
Proof.
  intros (c & ext & x & s & Hu & Hrun & Hs & [= ->])
    %find_negative_cycle_path_inv a b Hab.
  change (v :: u :: ext) with ([v; u] ++ ext) in Hab.
  pose proof (walk_back_links predecessor u v c ext x Hu Hrun) as Hlinks.
  pose proof (lookup_lt_Some _ _ _ Hs) as Hslt.
  set (cycle := [v; u] ++ ext) in *.
  assert (Hl : drop s cycle ++ [x] = drop s (cycle ++ [x])).
  { by rewrite drop_app_le by lia. }
  rewrite Hl in Hab. set (l := drop s (cycle ++ [x])) in *.
  unfold legs in Hab. apply list_elem_of_lookup in Hab as [i Hi].
  apply lookup_zip_with_Some in Hi as (a' & b' & [= <- <-] & Ha & Hb).
  rewrite lookup_tail in Hb.
  pose proof (lookup_lt_Some _ _ _ Hb) as Hilt. rewrite length_reverse in Hilt.
  rewrite reverse_lookup in Ha by (rewrite ?length_reverse; lia).
  rewrite reverse_lookup in Hb by (rewrite ?length_reverse; lia).
  replace (length l - S i)%nat with (S (length l - S (S i)))%nat in Ha by lia.
  unfold l in Ha, Hb. rewrite lookup_drop in Ha, Hb.
  rewrite Nat.add_succ_r in Ha.
  destruct (Hlinks _ _ _ Hb Ha) as [[= -> ->]|Hp]; [by left | by right].
Qed.

End reconstruction_facts.

(** ** The evaluation of a path *)

Section evaluation_facts.
Import Forex.
Context {G T : Type} {TS : Timestamp T}.
Implicit Types (self : Subscriber G T) (d : quotes T).

(** X23.  When every leg of the path is quoted, directly or in reverse
    with a price that is not zero, the evaluation raises nothing and prints
    one conversion line for each leg and no other line. *)
Theorem profit_loop_quoted d (path_legs : list iso_pair) :
  Forall (fun leg =>
            is_Some (dict_get d leg) \/
            exists (price : float) (t : T),
              dict_get d (leg.2, leg.1) = Some (price, t) /\
              (price =? 0)%float = false) path_legs ->
  forall (curr_money : float) (curr_rate : option float) (out : list message),
  exists (money : float) (lines : list message),
    profit_loop d path_legs curr_money curr_rate out
      = (Ok money, out ++ lines) /\
    length lines = length path_legs /\
    forall m, m ∈ lines ->
      exists leg rate amount, m = Conversion leg rate amount.
Proof.
  induction 1 as [|leg path_legs Hleg _ IH]; intros curr_money curr_rate out.
  - exists curr_money, []. rewrite (right_id_L [] (++)).
    split; [done|]. split; [done|]. by intros m ?%elem_of_nil.
  - cbn [profit_loop].
    assert (Hrate : exists rate,
      lookup_rate d leg curr_rate out = (Ok (Some rate), out)).
    { unfold lookup_rate.
      destruct (dict_get d leg) as [[price t]|] eqn:Hd; [by eexists|].
      destruct Hleg as [[? [=]]|(price & t & -> & Hnz)].
      unfold reciprocal. rewrite Hnz. by eexists. }
    destruct Hrate as [rate ->].
    destruct (IH (curr_money * rate)%float (Some rate)
                (out ++ [Conversion leg rate (curr_money * rate)%float]))
      as (money & lines & -> & Hlen & Hlines).
    exists money, (Conversion leg rate (curr_money * rate)%float :: lines).
    split; [by rewrite <- (assoc_L (++))|]. split; [cbn; lia|].
    intros m [->|Hm]%elem_of_cons; [by eexists _, _, _ | by apply Hlines].
Qed.

(** X24.  An opportunity is reported once.  A second detection on the
    same graph returns [None], prints nothing and changes nothing, also
    when the first one raised while it evaluated the path: the path was
    recorded before the evaluation.  The one other case is a
    reconstruction that raises its [KeyError], which it does again. *)
Theorem identify_arbitrage_repeat
    (shortest_paths :
       G -> string -> float -> dict string float * predecessors * option edge)
    self :
  let self1 := (identify_arbitrage shortest_paths self).2 in
  identify_arbitrage shortest_paths self1 = (Ok PyNone, self1) \/
  identify_arbitrage shortest_paths self = (Raise KeyError, self).
Proof.
  unfold identify_arbitrage.
  destruct (shortest_paths (quotes_graph self) "USD" tolerance)
    as [[dist predecessor] neg_edge] eqn:Hsp.
  destruct (find_negative_cycle_path predecessor neg_edge)
    as [[[|x path]|]|e] eqn:Hpath.
  - left. cbn [snd]. by rewrite Hsp, Hpath.
  - case_decide as Hcur.
    + left. cbn [snd]. rewrite Hsp, Hpath. by rewrite decide_True.
    + left. destruct (profit_loop _ _ _ _ _) as [r out].
      cbn [snd quotes_graph]. rewrite Hsp, Hpath. cbn [current_path].
      by rewrite decide_True.
  - left. cbn [snd]. by rewrite Hsp, Hpath.
  - right. by rewrite (find_negative_cycle_path_Raise _ _ _ Hpath).
Qed.

End evaluation_facts.

(** ** The two threads together *)

Section run_facts.
Import Forex Threads.
Context {G : Type}.
Context (new_BellmanFord : G).
Context (add_edge : G -> string -> string -> float -> G).
Context (shortest_paths :
  G -> string -> float -> dict string float * predecessors * option edge).
Context (libm_log10 : float -> float).
Context (bo : byteorder).
Implicit Types (self : Subscriber G float) (schedule : list turn).

#[local] Abbreviation take_turn :=
  (take_turn new_BellmanFord add_edge shortest_paths libm_log10 bo).
#[local] Abbreviation run :=
  (run new_BellmanFord add_edge shortest_paths libm_log10 bo).

(** A turn of the loop of [receive_updates] is a merge, and an eviction
    when the merge has not raised. *)
Lemma receive_updates_step_turns (now : datetime) (data : bytes) self :
  receive_updates_step bo now data self =
  match parse_quotes bo (split_quotes data) with
  | Ok _ => take_turn (take_turn self (Merge data)) (Evict now)
  | Raise _ => take_turn self (Merge data)
  end.
Proof.
  unfold receive_updates_step. cbn [Threads.take_turn].
  destruct (parse_quotes bo (split_quotes data)) as [new|e]; [|done].
  by destruct (update_quotes_dict new self) as [r self1].
Qed.

Lemma run_snoc schedule (t : turn) :
  run (schedule ++ [t]) = take_turn (run schedule) t.
Proof. unfold Threads.run. by rewrite foldl_app. Qed.

Lemma dict_set_nonempty {K V : Type} `{EqDecision K} (d : dict K V) (k : K)
    (v : V) :
  dict_set d k v <> [].
Proof. destruct d as [|[k0 v0] d]; cbn [dict_set]; [done|]. by case_decide. Qed.

(** The merge loop never empties the store, sets [updated] only when it
    has written an entry, and prints no line but its own two. *)
Lemma merge_fold_float (new : quotes float) :
  forall (d : quotes float) (updated : bool) (out : list message),
  exists d' updated' out',
    foldl merge_quote (d, updated, out) new = (d', updated', out') /\
    (d <> [] -> d' <> []) /\
    (updated' = true -> updated = true \/ d' <> []) /\
    (ArbitrageOpportunity ∉ out -> ArbitrageOpportunity ∉ out').
Proof.
  induction new as [|[iso [price timestamp]] new IH]; intros d updated out.
  - exists d, updated, out. split; [done|]. split; [done|]. split; [|done].
    intros ->. by left.
  - cbn [foldl]. unfold merge_quote at 2.
    destruct (dict_get d iso) as [[p0 t0]|].
    + destruct (ts_lt t0 timestamp).
      * destruct (IH (dict_set d iso (price, timestamp)) true out)
          as (d' & u' & out' & Hfold & Hne & _ & Hout).
        exists d', u', out'. split; [exact Hfold|].
        pose proof (Hne (dict_set_nonempty _ _ _)). split; [done|].
        split; [by right | done].
      * destruct (IH d updated (out ++ [OutdatedQuote iso]))
          as (d' & u' & out' & Hfold & Hne & Hup & Hout).
        exists d', u', out'. split; [exact Hfold|]. split; [done|].
        split; [done|]. intros Hnin. apply Hout.
        rewrite elem_of_app, list_elem_of_singleton. by intros [?|?].
    + destruct (IH (dict_set d iso (price, timestamp)) true
                  (out ++ [AddingNewQuotes iso]))
        as (d' & u' & out' & Hfold & Hne & _ & Hout).
      exists d', u', out'. split; [exact Hfold|].
      pose proof (Hne (dict_set_nonempty _ _ _)). split; [done|].
      split; [by right|]. intros Hnin. apply Hout.
      rewrite elem_of_app, list_elem_of_singleton. by intros [?|?].
Qed.

(** With the floats of the codec in the store, an eviction does nothing
    on the empty store and raises [TypeError] on any other. *)
Lemma remove_stale_quotes_float_run (now : datetime) self :
  remove_stale_quotes now self = (Ok PyNone, self) \/
  remove_stale_quotes now self = (Raise TypeError, self).
Proof.
  destruct (decide (quotes_dict self = [])) as [Hd|Hd].
  - left. destruct self as [d path g queue out]. cbn [quotes_dict] in Hd.
    by subst d.
  - right. by apply remove_stale_quotes_float_store.
Qed.

Lemma update_graph_step_store (utcnow : nat -> datetime) self :
  quotes_dict
    (update_graph_step new_BellmanFord add_edge shortest_paths libm_log10
       utcnow self) = quotes_dict self.
Proof.
  unfold update_graph_step.
  destruct (quotes_queue self) as [|snapshot rest]; [done|].
  destruct (build_graph _ _ _ _ _ _) as [g|e]; [|done].
  match goal with
  | |- context [identify_arbitrage _ ?s] =>
      pose proof (identify_arbitrage_frame shortest_paths s) as (Hd & _);
      destruct (identify_arbitrage shortest_paths s) as [[r|e] s']
  end; cbn [snd quotes_dict] in *; by rewrite Hd.
Qed.

(** What every turn keeps: the graph and the last path of [__init__], no
    line of a report, and no empty snapshot in the queue. *)
Lemma take_turn_invariant self (t : turn) :
  quotes_graph self = new_BellmanFord /\ current_path self = None /\
  (ArbitrageOpportunity ∉ stdout self) /\
  Forall (fun snapshot => snapshot <> []) (quotes_queue self) ->
  let self' := take_turn self t in
  quotes_graph self' = new_BellmanFord /\ current_path self' = None /\
  (ArbitrageOpportunity ∉ stdout self') /\
  Forall (fun snapshot => snapshot <> []) (quotes_queue self').
Proof.
  intros (Hg & Hp & Hout & Hq). destruct t as [data|now|utcnow];
    cbn [Threads.take_turn].
  - destruct (parse_quotes bo (split_quotes data)) as [new|e].
    + unfold update_quotes_dict.
      destruct (merge_fold_float new (quotes_dict self) false (stdout self))
        as (d' & u' & out' & -> & _ & Hup & Hlines).
      cbn [snd quotes_graph current_path stdout quotes_queue].
      split; [done|]. split; [done|]. split; [by apply Hlines|].
      destruct u'; [|done]. apply Forall_app. split; [done|].
      apply Forall_singleton. by destruct (Hup eq_refl).
    + cbn [quotes_graph current_path stdout quotes_queue].
      split; [done|]. split; [done|]. split; [|done].
      rewrite elem_of_app, list_elem_of_singleton. by intros [?|?].
  - destruct (remove_stale_quotes_float_run now self) as [->| ->].
    + done.
    + cbn [quotes_graph current_path stdout quotes_queue].
      split; [done|]. split; [done|]. split; [|done].
      rewrite elem_of_app, list_elem_of_singleton. by intros [?|?].
  - unfold update_graph_step.
    destruct (quotes_queue self) as [|snapshot rest] eqn:Hqueue.
    { split; [done|]. split; [done|]. split; [done|].
      rewrite ?Hqueue. constructor. }
    apply Forall_cons in Hq as [Hne Hq].
    rewrite (build_graph_float_snapshot add_edge libm_log10 utcnow 0 snapshot
               new_BellmanFord Hne).
    cbn [quotes_graph current_path stdout quotes_queue].
    split; [done|]. split; [done|]. split; [|done].
    rewrite elem_of_app, list_elem_of_singleton. by intros [?|?].
Qed.

(** X25.  The program never reports an opportunity.  Whatever datagrams
    arrive, whenever the evictions and the turns of the graph builder run
    and whatever the graph module computes, the active graph is the empty
    one of [__init__], the last path is [None] and no report is printed:
    every snapshot that reaches the queue has a quote, whose timestamp is a
    float, and the rebuild raises [TypeError] at its first quote before it
    has published anything. *)
Theorem run_never_reports schedule :
  let self := run schedule in
  quotes_graph self = new_BellmanFord /\
  current_path self = None /\
  ArbitrageOpportunity ∉ stdout self.
Proof.
  cbn zeta.
  assert (Hinv :
    quotes_graph (run schedule) = new_BellmanFord /\
    current_path (run schedule) = None /\
    (ArbitrageOpportunity ∉ stdout (run schedule)) /\
    Forall (fun snapshot => snapshot <> []) (quotes_queue (run schedule))).
  { induction schedule as [|t schedule IH] using rev_ind.
    - split; [done|]. split; [done|]. split; [apply not_elem_of_nil|].
      constructor.
    - rewrite run_snoc. by apply take_turn_invariant. }
  by destruct Hinv as (? & ? & ? & _).
Qed.

(** An entry of a parsed dictionary is the decoding of one of the
    chunks. *)
Lemma parse_quotes_loop_get (l : list bytes) :
  forall (d d' : dict iso_pair (float * float)) (iso : iso_pair)
    (entry : float * float),
  parse_quotes_loop bo l d = Ok d' -> dict_get d' iso = Some entry ->
  dict_get d iso = Some entry \/
  exists c, c ∈ l /\ parse_quote bo c = Ok (iso, entry).
Proof.
  induction l as [|c l IH]; intros d d' iso entry; cbn [parse_quotes_loop].
  - intros [= <-] Hget. by left.
  - destruct (parse_quote bo c) as [[iso0 entry0]|e] eqn:Hc; [|discriminate].
    intros Hloop Hget. destruct (IH _ _ _ _ Hloop Hget) as [Hset|(c' & ? & ?)].
    + destruct (decide (iso = iso0)) as [->|Hne].
      * rewrite dict_get_set_eq in Hset. injection Hset as ->.
        right. exists c. split; [left | done].
      * rewrite dict_get_set_ne in Hset by done. by left.
    + right. exists c'. split; [by right | done].
Qed.

(** X26.  The store holds nothing that was not received: in every
    schedule, an entry of the store is, price and timestamp, the decoding
    of a chunk of a datagram that was merged. *)
Theorem run_provenance schedule (iso : iso_pair) (entry : float * float) :
  dict_get (quotes_dict (run schedule)) iso = Some entry ->
  exists (data c : bytes),
    Merge data ∈ schedule /\ c ∈ split_quotes data /\
    parse_quote bo c = Ok (iso, entry).
Proof.
  revert iso entry.
  induction schedule as [|t schedule IH] using rev_ind; intros iso entry.
  - discriminate.
  - rewrite run_snoc.
    assert (Hold : dict_get (quotes_dict (run schedule)) iso = Some entry ->
      exists data c : bytes,
        Merge data ∈ schedule ++ [t] /\ c ∈ split_quotes data /\
        parse_quote bo c = Ok (iso, entry)).
    { intros (data & c & Hin & Hc)%IH. exists data, c.
      split; [|done]. apply elem_of_app. by left. }
    destruct t as [data|now|utcnow]; cbn [Threads.take_turn].
    + destruct (parse_quotes bo (split_quotes data)) as [new|e] eqn:Hparse;
        [|done].
      rewrite (update_quotes_dict_batch new (run schedule) iso
                 (parse_quotes_wf _ _ _ Hparse)).
      assert (Hnew : dict_get new iso = Some entry ->
        exists data' c : bytes,
          Merge data' ∈ schedule ++ [Merge data] /\ c ∈ split_quotes data' /\
          parse_quote bo c = Ok (iso, entry)).
      { intros Hget.
        destruct (parse_quotes_loop_get _ _ _ _ _ Hparse Hget)
          as [?|(c & Hc & Hdec)]; [done|].
        exists data, c. split; [|done]. apply elem_of_app. right. left. }
      destruct (dict_get new iso) as [[price timestamp]|]; [|done].
      destruct (dict_get (quotes_dict (run schedule)) iso) as [[p0 t0]|];
        [|done].
      by destruct (ts_lt t0 timestamp).
    + destruct (remove_stale_quotes_float_run now (run schedule))
        as [->| ->]; done.
    + by rewrite update_graph_step_store.
Qed.

End run_facts.

(** ** The further properties at work on the sample data *)

Section further_instances.
Import Forex Design Address Examples.
#[local] Open Scope string_scope.

(** X5 on [cut_record], five ASCII bytes: the price slice is empty. *)
Lemma parse_quote_short_error_witness :
  parse_quote little cut_record = Raise IndexError.
Proof. apply (parse_quote_short_error little cut_record). cbn. lia. Defined.

(** X7 on a list of two EUR/USD records: one entry, for EUR/USD. *)
Lemma parse_quotes_keys_witness :
  exists d,
    parse_quotes little [eurusd_record; older_eurusd_record] = Ok d /\
    dict_wf d /\ ("EUR", "USD") ∈ keys d /\ (length d <= 2)%nat.
Proof.
  eexists. split; [reflexivity|].
  destruct (parse_quotes_keys little [eurusd_record; older_eurusd_record]
              _ eq_refl) as (Hwf & Hkeys & Hlen).
  split; [exact Hwf|]. split; [|exact Hlen].
  apply Hkeys. eexists eurusd_record, _. split; [left | reflexivity].
Defined.

(** X9 on the example of the docstring, on a little-endian host. *)
Lemma serialize_address_layout_witness :
  exists port_bytes : bytes,
    serialize_address loopback_packed little ("127.0.0.1", 65534) =
      inr ([x7f; x00; x00; x01] ++ port_bytes)%list /\
    length port_bytes = 2%nat /\
    wire_uint big port_bytes = 65534.
Proof.
  apply (serialize_address_layout loopback_packed little "127.0.0.1" 65534);
    [reflexivity | lia].
Defined.

(** The bytes of the docstring, and those of a big-endian host for the
    same address. *)
Example serialize_address_docstring :
  serialize_address loopback_packed little ("127.0.0.1", 65534) =
    inr [x7f; x00; x00; x01; xff; xfe] /\
  serialize_address loopback_packed big ("127.0.0.1", 65534) =
    inr [x7f; x00; x00; x01; xfe; xff] /\
  serialize_address loopback_packed little ("127.0.0.1", 65536) =
    inl OverflowError /\
  serialize_address loopback_packed little ("localhost", 65536) =
    inl AddressValueError.
Proof. split; [|split; [|split]]; reflexivity. Qed.

Lemma mixed_batch_wf : dict_wf mixed_batch.
Proof. unfold dict_wf. by apply (bool_decide_unpack _). Defined.

(** X11 on [three_quotes] and [mixed_batch]. *)
Lemma update_quotes_dict_idempotent_witness :
  quotes_dict
    (update_quotes_dict mixed_batch
       (update_quotes_dict mixed_batch three_quotes_subscriber).2).2 =
  quotes_dict (update_quotes_dict mixed_batch three_quotes_subscriber).2 /\
  quotes_queue
    (update_quotes_dict mixed_batch
       (update_quotes_dict mixed_batch three_quotes_subscriber).2).2 =
  quotes_queue (update_quotes_dict mixed_batch three_quotes_subscriber).2.
Proof.
  exact (update_quotes_dict_idempotent mixed_batch three_quotes_subscriber
           mixed_batch_wf).
Defined.

(** X12 on [three_quotes] and [mixed_batch]: EUR/USD, stored at 0 s and
    quoted at 0.25 s, is stored at 0.25 s; USD/SEK, stored at 0.5 s and
    quoted at 0.4 s, is still stored at 0.5 s. *)
Lemma update_quotes_dict_monotone_witness :
  (exists p1 : float,
     dict_get
       (quotes_dict (update_quotes_dict mixed_batch three_quotes_subscriber).2)
       ("EUR", "USD") = Some (p1, 250000)) /\
  (exists p1 : float,
     dict_get
       (quotes_dict (update_quotes_dict mixed_batch three_quotes_subscriber).2)
       ("USD", "SEK") = Some (p1, 500000)).
Proof.
  split.
  - destruct (update_quotes_dict_monotone mixed_batch three_quotes_subscriber
                ("EUR", "USD") 1.25%float 0 mixed_batch_wf eq_refl)
      as (p1 & t1 & Hget & _ & Hmax).
    exists p1. by rewrite Hget, (Hmax 1.5%float 250000 eq_refl).
  - destruct (update_quotes_dict_monotone mixed_batch three_quotes_subscriber
                ("USD", "SEK") 10%float 500000 mixed_batch_wf eq_refl)
      as (p1 & t1 & Hget & _ & Hmax).
    exists p1. by rewrite Hget, (Hmax 9%float 400000 eq_refl).
Defined.

(** X13 on [three_quotes] at 2 s: EUR/USD goes, with one line. *)
Lemma remove_stale_quotes_filter_witness :
  exists self',
    remove_stale_quotes 2000000 three_quotes_subscriber = (Ok PyNone, self') /\
    quotes_dict self' =
      [(("USD", "SEK"), (10%float, 500000));
       (("USD", "JPY"), (100%float, 1000000))] /\
    stdout self' = [RemovingQuote ("EUR", "USD") 1.25 2000000].
Proof.
  exact (remove_stale_quotes_filter 2000000 three_quotes_subscriber
           three_quotes_wf).
Defined.

(** X14 on [three_quotes] at 2 s. *)
Lemma remove_stale_quotes_idempotent_witness :
  remove_stale_quotes 2000000
    (remove_stale_quotes 2000000 three_quotes_subscriber).2 =
  (Ok PyNone, (remove_stale_quotes 2000000 three_quotes_subscriber).2).
Proof.
  exact (remove_stale_quotes_idempotent 2000000 three_quotes_subscriber
           three_quotes_wf).
Defined.

(** X15 on a queue that holds [three_quotes], read at 1.8 s, 1.9 s and
    2 s: the graph of the four edges of USD/SEK and USD/JPY is
    published. *)
Lemma update_graph_step_publishes_witness :
  quotes_graph
    (update_graph_step EdgeList.empty EdgeList.add_edge no_cycle
       log10_of_power (fun i => 1800000 + 100000 * Z.of_nat i)
       (mk_Subscriber [] None EdgeList.empty [three_quotes] [])) =
  [("USD", "SEK", (- 1)%float);
   ("SEK", "USD", 1%float);
   ("USD", "JPY", (- 2)%float);
   ("JPY", "USD", 2%float)].
Proof.
  destruct (update_graph_step_publishes EdgeList.empty EdgeList.add_edge
              no_cycle log10_of_power (fun i => 1800000 + 100000 * Z.of_nat i)
              (mk_Subscriber [] None EdgeList.empty [three_quotes] [])
              three_quotes [] eq_refl) as [Hgraph _].
  - repeat constructor.
  - exact Hgraph.
Defined.


(** X21 on [cycle_predecessors], whose predecessors are all keys. *)
Lemma find_negative_cycle_path_returns_witness :
  exists path : list string,
    find_negative_cycle_path cycle_predecessors (Some ("D", "X")) =
    Ok (Some path).
Proof.
  apply (find_negative_cycle_path_returns cycle_predecessors "D" "X").
  - by apply (bool_decide_unpack _).
  - intros k y. unfold cycle_predecessors. cbn [dict_get].
    repeat case_decide; intros [= <-]; right; by apply (bool_decide_unpack _).
Defined.

(** X22 on the path A, B, C, A of [cycle_predecessors]: its leg (C, A)
    is the predecessor link of A. *)
Lemma find_negative_cycle_path_legs_witness :
  ("C", "A") = ("D", "X") \/ dict_get cycle_predecessors "A" = Some "C".
Proof.
  apply (find_negative_cycle_path_legs cycle_predecessors "D" "X"
           ["A"; "B"; "C"; "A"] eq_refl).
  unfold legs. cbn [zip_with tail].
  do 2 apply list_elem_of_further. apply list_elem_of_here.
Defined.

(** X23 on [three_quotes]: USD to EUR by the reverse of EUR/USD, and
    back. *)
Lemma profit_loop_quoted_witness :
  exists (money : float) (lines : list message),
    profit_loop three_quotes [("USD", "EUR"); ("EUR", "USD")] 100 None [] =
    (Ok money, lines) /\
    length lines = 2%nat.
Proof.
  destruct (profit_loop_quoted three_quotes [("USD", "EUR"); ("EUR", "USD")])
    with (curr_money := 100%float) (curr_rate := @None float)
         (out := @nil message)
    as (money & lines & Hrun & Hlen & _).
  - constructor.
    + right. exists 1.25%float, 0. split; reflexivity.
    + constructor; [|constructor]. left. by eexists.
  - exists money, lines. split; [exact Hrun | exact Hlen].
Defined.

(** X26 on [one_datagram_schedule]: the EUR/USD entry of the store is
    the decoding of a chunk of the datagram of the schedule. *)
Lemma run_provenance_witness :
  exists (data c : bytes),
    Threads.Merge data ∈ one_datagram_schedule /\ c ∈ split_quotes data /\
    parse_quote little c =
    Ok (("EUR", "USD"),
        (binary32_to_float 0x42f6e9d5, true_div 0x37a3658ef2c0 1000000)).
Proof.
  apply (run_provenance EdgeList.empty EdgeList.add_edge no_cycle
           log10_of_power little one_datagram_schedule).
  reflexivity.
Defined.

End further_instances.
